(** * Shortest paths with a lazy-deletion heap: [task_3.py]

    A shallow embedding of [dijkstra_with_heap] and the properties of its
    distance table, visited set and priority queue.

    The dictionaries that the program reads by key ([graph], [distances])
    are finite maps ([gmap]). An adjacency dictionary [graph[v]] is only
    ever walked through [.items()], so it is kept as the list of its items
    in insertion order; none of the results needs its keys to be distinct.
    The set [visited] is a [gset]; Python's unbounded [int] is [Z];
    [float('infinity')] is the constructor [Inf].

    The same function is embedded a second time on a store of objects
    ([dijkstra_with_heap_store]): the graph is a reference to a
    dictionary of references to dictionaries, every assignment is a
    write to a reference. That embedding is shown to compute what the
    first one computes, and is the one in which what the call does to
    the objects of its caller can be stated. *)

From Stdlib Require Import ZArith Lia OrderedTypeEx.
From stdpp Require Import base strings gmap sets list fin_maps.

Local Open Scope Z_scope.

(** ** Values *)

(** A cell of the distance table: an [int] or [float('infinity')]. *)
Inductive dist : Type :=
  | Fin (d : Z)
  | Inf.

#[global] Instance dist_eq_dec : EqDecision dist.
Proof. solve_decision. Defined.

(** [new_distance < distances[neighbor]], with an [int] on the left. *)
Definition dist_ltb (n : Z) (x : dist) : bool :=
  match x with
  | Fin d => n <? d
  | Inf => true
  end.

(** The order of table cells: every number is below infinity. *)
Definition dist_le (x y : dist) : Prop :=
  match x, y with
  | Fin a, Fin b => a <= b
  | _, Inf => True
  | Inf, Fin _ => False
  end.

(** A raised exception: its class and the key it carries. *)
Record exn : Type := Exn { exn_class : string; exn_key : string }.

Definition KeyError (key : string) : exn :=
  {| exn_class := "KeyError"; exn_key := key |}.

(** The items of an adjacency dictionary, in insertion order. *)
Abbreviation adjacency := (list (string * Z)).

(** The graph: vertex to adjacency dictionary. *)
Abbreviation graph_t := (gmap string (list (string * Z))).

(** The distance table. *)
Abbreviation table := (gmap string dist).

(** ** The priority queue ([heapq] on a list of tuples) *)

Definition entry : Type := Z * string.

(** Tuple comparison [(d1, v1) < (d2, v2)]: the first components decide
    unless they are equal, then the strings do. *)
Definition entry_ltb (a b : entry) : bool :=
  if a.1 =? b.1 then String.ltb a.2 b.2 else a.1 <? b.1.

(** [a] comes strictly before [b] in the order of Python tuples. *)
Definition entry_lt (a b : entry) : Prop :=
  a.1 < b.1 ∨ (a.1 = b.1 ∧ String_as_OT.lt a.2 b.2).

(** The queue keeps its entries and counts the calls made on it; the
    counters take no part in any decision of the program. *)
Record pqueue : Type := PQ {
  pq_items : list entry;
  pq_pushes : nat;
  pq_pops : nat
}.

(** [heapq.heapify] of the initial list; its entries are not counted as
    pushes. *)
Definition heapify (l : list entry) : pqueue :=
  {| pq_items := l; pq_pushes := 0; pq_pops := 0 |}.

Definition heappush (q : pqueue) (e : entry) : pqueue :=
  {| pq_items := e :: pq_items q;
     pq_pushes := S (pq_pushes q);
     pq_pops := pq_pops q |}.

(** Smallest entry of [x :: l] and the entries left once it is taken. *)
Fixpoint pop_min (x : entry) (l : list entry) : entry * list entry :=
  match l with
  | [] => (x, [])
  | y :: l' =>
      let '(m, r) := pop_min y l' in
      if entry_ltb m x then (m, x :: r) else (x, y :: l')
  end.

(** [heapq.heappop]: [None] stands for the empty queue, which the loop
    condition [while priority_queue] excludes. *)
Definition heappop (q : pqueue) : option (entry * pqueue) :=
  match pq_items q with
  | [] => None
  | x :: l =>
      let '(m, r) := pop_min x l in
      Some (m, {| pq_items := r;
                  pq_pushes := pq_pushes q;
                  pq_pops := S (pq_pops q) |})
  end.

(** ** The program state *)

Record state : Type := State {
  graph : graph_t;
  distances : table;
  visited : gset string;
  priority_queue : pqueue
}.

(** Result of a fallible computation. *)
Inductive result (A : Type) : Type :=
  | Ok (a : A)
  | Raise (e : exn).
Arguments Ok {A} a.
Arguments Raise {A} e.

#[global] Instance result_ret : MRet result := λ A a, Ok a.
#[global] Instance result_bind : MBind result := λ A B k r,
  match r with
  | Ok a => k a
  | Raise e => Raise e
  end.

(** Body of the [for neighbor, weight in ...items()] loop (lines 33-42). *)
Definition relax (vis : gset string) (current_distance : Z)
    (acc : table * pqueue) (item : string * Z)
    : result (table * pqueue) :=
  let '(neighbor, weight) := item in
  if decide (neighbor ∈ vis) then Ok acc
  else
    let new_distance := current_distance + weight in
    match acc.1 !! neighbor with
    | None => Raise (KeyError neighbor)
    | Some old =>
        if dist_ltb new_distance old
        then Ok (<[neighbor := Fin new_distance]> acc.1,
                 heappush acc.2 (new_distance, neighbor))
        else Ok acc
    end.

(** The [for] loop over the items of one adjacency dictionary. *)
Fixpoint for_items (vis : gset string) (current_distance : Z)
    (acc : table * pqueue) (items : adjacency)
    : result (table * pqueue) :=
  match items with
  | [] => Ok acc
  | item :: rest =>
      acc' ← relax vis current_distance acc item;
      for_items vis current_distance acc' rest
  end.

(** How one pass through [while priority_queue] ends: with the state for
    the next pass, with the loop condition false, or with an exception. *)
Inductive step_result : Type :=
  | Continue (st : state)
  | Break
  | Throw (e : exn).

(** The loop condition and one pass through the body (lines 25-42). *)

Definition iteration (st : state) : step_result :=
  match heappop (priority_queue st) with
  | None => Break
  | Some ((current_distance, current_vertex), pq) =>
      if decide (current_vertex ∈ visited st)
      then Continue {| graph := graph st; distances := distances st;
                       visited := visited st; priority_queue := pq |}
      else
        let vis := {[current_vertex]} ∪ visited st in
        match graph st !! current_vertex with
        | None => Throw (KeyError current_vertex)
        | Some adj =>
            match for_items vis current_distance (distances st, pq) adj with
            | Raise e => Throw e
            | Ok (ds, pq') =>
                Continue {| graph := graph st; distances := ds;
                            visited := vis; priority_queue := pq' |}
            end
        end
  end.

(** How a run of the loop ends; [OutOfFuel] when the iterations allowed
    did not suffice. *)
Inductive outcome : Type :=
  | Finished (st : state)
  | Raised (e : exn)
  | OutOfFuel.

Fixpoint while_loop (fuel : nat) (st : state) : outcome :=
  match fuel with
  | O => OutOfFuel
  | S fuel' =>
      match iteration st with
      | Continue st' => while_loop fuel' st'
      | Break => Finished st
      | Throw e => Raised e
      end
  end.

(** Lines 17-23. *)
Definition init_state (g : graph_t) (start : string)
    : state :=
  {| graph := g;
     distances := <[start := Fin 0]> ((λ _, Inf) <$> g);
     visited := ∅;
     priority_queue := heapify [(0, start)] |}.

(** Number of edges of the graph. *)
Definition edge_count (g : graph_t) : nat :=
  sum_list (length <$> (snd <$> map_to_list g)).

(** The loop from the initial state, with one unit of fuel per entry that
    can ever be queued and one for the last test of the loop condition:
    this is never used up ([run_never_out_of_fuel]). *)
Definition run (g : graph_t) (start : string)
    : outcome :=
  while_loop (S (S (edge_count g))) (init_state g start).

(** What the caller of [dijkstra_with_heap] gets. *)
Inductive call_result : Type :=
  | Returns (t : table)
  | Raises (e : exn)
  | Diverges.

Definition dijkstra_with_heap (g : graph_t)
    (start : string) : call_result :=
  match run g start with
  | Finished st => Returns (distances st)
  | Raised e => Raises e
  | OutOfFuel => Diverges
  end.

(** ** The sample graph and the scenarios *)

Definition create_sample_graph : graph_t :=
  list_to_map [
    ("A", [("B", 5); ("C", 10)]);
    ("B", [("A", 5); ("D", 3)]);
    ("C", [("A", 10); ("D", 2)]);
    ("D", [("B", 3); ("C", 2); ("E", 4)]);
    ("E", [("D", 4)])
  ]%string.

(** Scenario 3 of the specification: a disconnected graph. *)
Definition disconnected_graph : graph_t :=
  list_to_map [("A", [("B", 1)]); ("B", []); ("C", [])]%string.

(** A graph with a negative edge on which the loop finalizes [B] too early. *)
Definition negative_graph : graph_t :=
  list_to_map [
    ("A", [("B", 1); ("C", 2)]);
    ("B", []);
    ("C", [("B", -5)])
  ]%string.

(** A graph whose adjacency mentions a vertex that is not a key. *)
Definition dangling_graph : graph_t :=
  list_to_map [("A", [("Z", 1)])]%string.

(** ** Graphs, paths and the hypotheses on the input *)

(** [edge g v u w]: [(u, w)] is an item of [graph[v]]. *)
Definition edge (g : graph_t) (v u : string) (w : Z)
    : Prop :=
  ∃ adj, g !! v = Some adj ∧ (u, w) ∈ adj.

(** [path g s v W]: a directed path from [s] to [v] of total weight [W]. *)
Inductive path (g : graph_t) (s : string)
    : string → Z → Prop :=
  | path_start : path g s s 0
  | path_step v u W w :
      path g s v W → edge g v u w → path g s u (W + w).

(** Every neighbor mentioned in an adjacency dictionary is a key. *)
Definition closed (g : graph_t) : Prop :=
  map_Forall (λ _ (adj : list (string * Z)),
    Forall (λ item, item.1 ∈ dom g) adj) g.

(** Every edge weight is at least zero. *)
Definition nonneg (g : graph_t) : Prop :=
  map_Forall (λ _ (adj : list (string * Z)),
    Forall (λ item, 0 <= item.2) adj) g.

#[global] Instance closed_dec g : Decision (closed g).
Proof. unfold closed. apply _. Defined.

#[global] Instance nonneg_dec g : Decision (nonneg g).
Proof. unfold nonneg. apply _. Defined.

(** Some edge has a negative weight. *)
Definition has_negative_edge (g : graph_t) : Prop :=
  ∃ v u w, edge g v u w ∧ w < 0.

(** [shortest g s v d]: [d] is the least weight of a path from [s] to [v]. *)
Definition shortest (g : graph_t) (s v : string) (d : Z)
    : Prop :=
  path g s v d ∧ ∀ W, path g s v W → d <= W.

(** [graph[a][b] = w']: the item [(b, w)] of [graph[a]] becomes [(b, w')]. *)
Definition set_weight (b : string) (w w' : Z) (item : string * Z)
    : string * Z :=
  if decide (item = (b, w)) then (b, w') else item.

Definition raise_edge (g : graph_t) (a b : string)
    (w w' : Z) : graph_t :=
  alter (fmap (set_weight b w w')) a g.

(** ** Runs of the loop *)

(** The state after one more iteration, when there is one. *)
Definition advance (st : state) : state :=
  match iteration st with
  | Continue st' => st'
  | _ => st
  end.

Definition step (st st' : state) : Prop := iteration st = Continue st'.

(** The states a call on [g] and [start] goes through. *)
Definition reachable (g : graph_t) (start : string)
    (st : state) : Prop :=
  rtc step (init_state g start) st.

(** [v] is added to [visited] by the iteration from [st] to [st']. *)
Definition enters (v : string) (st st' : state) : Prop :=
  step st st' ∧ (v ∉ visited st) ∧ (v ∈ visited st').

(** Out-degree of a vertex, counted while it is not visited. *)
Definition open_degree (vis : gset string)
    (p : string * list (string * Z)) : nat :=
  if decide (p.1 ∈ vis) then O else length p.2.

(** Out-degrees of the vertices not yet visited. *)
Definition pending (g : graph_t) (vis : gset string)
    : nat :=
  sum_list (open_degree vis <$> map_to_list g).

(** ** Invariants of the loop *)

(** Facts that hold whatever the sign of the weights. *)
Record basic_inv (g : graph_t) (s : string)
    (st : state) : Prop := {
  bi_graph : graph st = g;
  bi_dom : dom (distances st) = dom g;
  bi_start :
    distances st !! s = Some (Fin 0) ∧
    (s ∈ visited st ∨
     (visited st = ∅ ∧ pq_items (priority_queue st) = [(0, s)]));
  bi_queue : ∀ k x,
    (k, x) ∈ pq_items (priority_queue st) →
    ∃ d, distances st !! x = Some (Fin d) ∧ d <= k;
  bi_cover : ∀ v d,
    v ∉ visited st → distances st !! v = Some (Fin d) →
    (d, v) ∈ pq_items (priority_queue st);
  bi_path : ∀ v d, distances st !! v = Some (Fin d) → path g s v d;
  bi_visited : ∀ v,
    v ∈ visited st → ∃ d, distances st !! v = Some (Fin d);
  bi_edges : ∀ v u w,
    v ∈ visited st → edge g v u w →
    ∃ d, distances st !! u = Some (Fin d);
  bi_count :
    (length (pq_items (priority_queue st)) + pq_pops (priority_queue st)
     = pq_pushes (priority_queue st) + 1)%nat;
  bi_pushes :
    (pq_pushes (priority_queue st) + pending g (visited st)
     <= edge_count g)%nat
}.

(** Facts that need the weights to be non-negative. *)
Record dijkstra_inv (g : graph_t) (st : state)
    : Prop := {
  di_low : ∀ u du k x,
    u ∈ visited st → distances st !! u = Some (Fin du) →
    (k, x) ∈ pq_items (priority_queue st) → du <= k;
  di_relaxed : ∀ v u w dv du,
    v ∈ visited st → edge g v u w →
    distances st !! v = Some (Fin dv) →
    distances st !! u = Some (Fin du) → du <= dv + w
}.

(** What holds between two items of the [for] loop of one iteration: [st]
    is the state at the pop, [vis] the visited set after the [add], [k] the
    popped distance, [seen] the items already handled. *)
Record relax_inv (g : graph_t) (s : string)
    (st : state) (vis : gset string) (k : Z) (q0 : pqueue)
    (seen : list (string * Z)) (acc : table * pqueue)
    : Prop := {
  ri_dom : dom acc.1 = dom g;
  ri_frame : ∀ x, x ∈ vis → acc.1 !! x = distances st !! x;
  ri_queue : ∀ k' x,
    (k', x) ∈ pq_items acc.2 →
    ∃ d, acc.1 !! x = Some (Fin d) ∧ d <= k';
  ri_cover : ∀ x d,
    x ∉ vis → acc.1 !! x = Some (Fin d) → (d, x) ∈ pq_items acc.2;
  ri_path : ∀ x d, acc.1 !! x = Some (Fin d) → path g s x d;
  ri_mono : ∀ x d,
    distances st !! x = Some (Fin d) →
    ∃ d', acc.1 !! x = Some (Fin d') ∧ d' <= d;
  ri_seen : ∀ u w,
    (u, w) ∈ seen →
    u ∈ vis ∨ ∃ du, acc.1 !! u = Some (Fin du) ∧ du <= k + w;
  ri_keys : ∀ k' x,
    (k', x) ∈ pq_items acc.2 →
    (k', x) ∈ pq_items q0 ∨ ∃ w, (x, w) ∈ seen ∧ k' = k + w;
  ri_old : ∀ e, e ∈ pq_items q0 → e ∈ pq_items acc.2;
  ri_pops : pq_pops acc.2 = pq_pops q0;
  ri_count :
    (length (pq_items acc.2) + pq_pushes q0
     = length (pq_items q0) + pq_pushes acc.2)%nat;
  ri_pushes : (pq_pushes acc.2 <= pq_pushes q0 + length seen)%nat
}.

(** ** Relations between graphs *)

(** Every item of every adjacency dictionary of [g] is an item of the
    adjacency dictionary of the same vertex in [g']. *)
Definition edges_within (g g' : graph_t) : Prop :=
  map_Forall (λ v (adj : adjacency),
    Forall (λ item, item ∈ default [] (g' !! v)) adj) g.

#[global] Instance edges_within_dec g g' : Decision (edges_within g g').
Proof. unfold edges_within. apply _. Defined.

(** Every edge of [g] has in [g'] an edge between the same vertices that
    weighs no more. *)
Definition undercut_by (g g' : graph_t) : Prop :=
  map_Forall (λ v (adj : adjacency),
    Forall (λ item : string * Z,
      Exists (λ item' : string * Z, item'.1 = item.1 ∧ item'.2 <= item.2)
             (default [] (g' !! v))) adj) g.

#[global] Instance undercut_by_dec g g' : Decision (undercut_by g g').
Proof. unfold undercut_by. apply _. Defined.

(** Every edge has the opposite edge, with the same weight. *)
Definition symmetric (g : graph_t) : Prop :=
  map_Forall (λ v (adj : adjacency),
    Forall (λ item : string * Z,
      (v, item.2) ∈ default [] (g !! item.1)) adj) g.

#[global] Instance symmetric_dec g : Decision (symmetric g).
Proof. unfold symmetric. apply _. Defined.

(** The sample graph with the items of two adjacency dictionaries written
    in another order. *)
Definition reordered_sample_graph : graph_t :=
  list_to_map [
    ("A", [("C", 10); ("B", 5)]);
    ("B", [("A", 5); ("D", 3)]);
    ("C", [("A", 10); ("D", 2)]);
    ("D", [("E", 4); ("C", 2); ("B", 3)]);
    ("E", [("D", 4)])
  ]%string.

(** The sample graph with a shortcut from [A] to [E]. *)
Definition shortcut_sample_graph : graph_t :=
  <["A" := [("B", 5); ("C", 10); ("E", 1)]]> create_sample_graph.

(** A graph whose dangling edge cannot be reached from [A]. *)
Definition unreached_dangling_graph : graph_t :=
  list_to_map [("A", [("B", 2)]); ("B", []); ("C", [("Z", 1)])]%string.

(** ** The call on a store of objects *)

(** What a variable or a dictionary slot holds: an [int],
    [float('infinity')], or a reference to an object of the store. *)
Inductive value : Type :=
  | VInt (n : Z)
  | VInf
  | VRef (l : nat).

(** The objects that can be written to: dictionaries (their items in
    insertion order), sets of strings, and the list that [heapq] works
    on. *)
Inductive obj : Type :=
  | ODict (items : list (string * value))
  | OSet (elems : gset string)
  | OList (q : pqueue).

(** The store: the object a reference points to is the one at that
    index. A new object goes at the end. *)
Abbreviation store := (list obj).

(** [d[k]], [None] for a missing key. *)
Fixpoint dict_get (d : list (string * value)) (k : string) : option value :=
  match d with
  | [] => None
  | (k', v) :: d' => if decide (k' = k) then Some v else dict_get d' k
  end.

(** [d[k] = v]: in place for a key that is there, at the end otherwise. *)
Fixpoint dict_set (d : list (string * value)) (k : string) (v : value)
    : list (string * value) :=
  match d with
  | [] => [(k, v)]
  | (k', v') :: d' =>
      if decide (k' = k) then (k', v) :: d' else (k', v') :: dict_set d' k v
  end.

Definition read_dict (σ : store) (l : nat) : option (list (string * value)) :=
  match σ !! l with
  | Some (ODict d) => Some d
  | _ => None
  end.

Definition read_set (σ : store) (l : nat) : option (gset string) :=
  match σ !! l with
  | Some (OSet s) => Some s
  | _ => None
  end.

Definition read_list (σ : store) (l : nat) : option pqueue :=
  match σ !! l with
  | Some (OList q) => Some q
  | _ => None
  end.

(** The number that a table slot holds. *)
Definition number_of (v : value) : option dist :=
  match v with
  | VInt n => Some (Fin n)
  | VInf => Some Inf
  | VRef _ => None
  end.

(** The variables of the call, each a reference into the store. *)
Record locals : Type := Locals {
  graph_ref : nat;
  distances_ref : nat;
  priority_queue_ref : nat;
  visited_ref : nat
}.

(** A statement ends with a new store, raises with the store as it then
    is, or meets an object that is not of the type the signature of
    [dijkstra_with_heap] gives it, which is not followed further. *)
Inductive sresult : Type :=
  | SOk (σ : store)
  | SRaise (e : exn) (σ : store)
  | SIllTyped.

(** Body of the [for] loop (lines 34-42), on the store. *)
Definition relax_store (L : locals) (current_distance : Z) (σ : store)
    (item : string * value) : sresult :=
  let '(neighbor, weight) := item in
  match read_set σ (visited_ref L) with
  | None => SIllTyped
  | Some vis =>
      if decide (neighbor ∈ vis) then SOk σ
      else
        match weight with
        | VInt w =>
            let new_distance := current_distance + w in
            match read_dict σ (distances_ref L) with
            | None => SIllTyped
            | Some ds =>
                match dict_get ds neighbor with
                | None => SRaise (KeyError neighbor) σ
                | Some old =>
                    match number_of old with
                    | None => SIllTyped
                    | Some old_distance =>
                        if dist_ltb new_distance old_distance then
                          let σ1 :=
                            <[distances_ref L :=
                                ODict (dict_set ds neighbor
                                         (VInt new_distance))]> σ in
                          match read_list σ1 (priority_queue_ref L) with
                          | None => SIllTyped
                          | Some q =>
                              SOk (<[priority_queue_ref L :=
                                       OList (heappush q
                                                (new_distance, neighbor))]>
                                     σ1)
                          end
                        else SOk σ
                    end
                end
            end
        | _ => SIllTyped
        end
  end.

(** The [for] loop over the items that [graph[current_vertex]] held when
    the loop began. *)
Fixpoint for_items_store (L : locals) (current_distance : Z) (σ : store)
    (items : list (string * value)) : sresult :=
  match items with
  | [] => SOk σ
  | item :: rest =>
      match relax_store L current_distance σ item with
      | SOk σ' => for_items_store L current_distance σ' rest
      | r => r
      end
  end.

Inductive sstep : Type :=
  | SContinue (σ : store)
  | SBreak
  | SThrow (e : exn) (σ : store)
  | SStuck.

(** The loop condition and one pass through the body (lines 25-42). *)
Definition iteration_store (L : locals) (σ : store) : sstep :=
  match read_list σ (priority_queue_ref L) with
  | None => SStuck
  | Some q =>
      match heappop q with
      | None => SBreak
      | Some ((current_distance, current_vertex), q') =>
          let σ1 := <[priority_queue_ref L := OList q']> σ in
          match read_set σ1 (visited_ref L) with
          | None => SStuck
          | Some vis =>
              if decide (current_vertex ∈ vis) then SContinue σ1
              else
                let σ2 :=
                  <[visited_ref L := OSet ({[current_vertex]} ∪ vis)]> σ1 in
                match read_dict σ2 (graph_ref L) with
                | None => SStuck
                | Some g =>
                    match dict_get g current_vertex with
                    | None => SThrow (KeyError current_vertex) σ2
                    | Some (VRef a) =>
                        match read_dict σ2 a with
                        | None => SStuck
                        | Some adj =>
                            match for_items_store L current_distance σ2 adj
                            with
                            | SOk σ3 => SContinue σ3
                            | SRaise e σ3 => SThrow e σ3
                            | SIllTyped => SStuck
                            end
                        end
                    | Some _ => SStuck
                    end
                end
          end
      end
  end.

Inductive soutcome : Type :=
  | SFinished (σ : store)
  | SRaised (e : exn) (σ : store)
  | SRejected
  | SOutOfFuel.

Fixpoint while_store (fuel : nat) (L : locals) (σ : store) : soutcome :=
  match fuel with
  | O => SOutOfFuel
  | S fuel' =>
      match iteration_store L σ with
      | SContinue σ' => while_store fuel' L σ'
      | SBreak => SFinished σ
      | SThrow e σ' => SRaised e σ'
      | SStuck => SRejected
      end
  end.

(** The graph that the object at a reference stands for, when it is of
    type [Dict[str, Dict[str, int]]]. *)
Definition weight_of (item : string * value) : option (string * Z) :=
  match item.2 with
  | VInt w => Some (item.1, w)
  | _ => None
  end.

Definition adjacency_of (σ : store) (item : string * value)
    : option (string * list (string * Z)) :=
  match item.2 with
  | VRef a =>
      match read_dict σ a with
      | Some d => pair item.1 <$> mapM weight_of d
      | None => None
      end
  | _ => None
  end.

Definition graph_of_store (σ : store) (l : nat) : option graph_t :=
  match read_dict σ l with
  | Some d => list_to_map <$> mapM (adjacency_of σ) d
  | None => None
  end.

(** The table that a dictionary of numbers stands for. *)
Definition table_of (d : list (string * value)) : table :=
  list_to_map ((λ item, (item.1, default Inf (number_of item.2))) <$> d).

(** What the caller gets: the reference of the returned table and the
    store after the call, or the exception and the store. *)
Inductive scall : Type :=
  | SReturns (r : nat) (σ : store)
  | SRaises (e : exn) (σ : store)
  | SRejects
  | SDiverges.

(** [d[k] = v] for the dictionary [d] at the reference [l]. *)
Definition store_dict_set (σ : store) (l : nat) (k : string) (v : value)
    : store :=
  match read_dict σ l with
  | Some d => <[l := ODict (dict_set d k v)]> σ
  | None => σ
  end.

(** [dijkstra_with_heap(graph, start)] where [graph] is a reference into
    the store [σ]: lines 17 to 23 make three new objects, the loop works
    on them, line 44 returns the reference of the table. A call whose
    argument is not of type [Dict[str, Dict[str, int]]] is not followed
    ([SRejects]). *)
Definition dijkstra_with_heap_store (σ : store) (graph : nat)
    (start : string) : scall :=
  match graph_of_store σ graph, read_dict σ graph with
  | Some g, Some d =>
      let distances := length σ in
      let σ0 := σ ++ [ODict ((λ item, (item.1, VInf)) <$> d)] in
      let σ1 := store_dict_set σ0 distances start (VInt 0) in
      let priority_queue := length σ1 in
      let σ2 := σ1 ++ [OList (heapify [(0, start)])] in
      let visited := length σ2 in
      let σ3 := σ2 ++ [OSet ∅] in
      let L := {| graph_ref := graph; distances_ref := distances;
                  priority_queue_ref := priority_queue;
                  visited_ref := visited |} in
      match while_store (S (S (edge_count g))) L σ3 with
      | SFinished σ' => SReturns distances σ'
      | SRaised e σ' => SRaises e σ'
      | SRejected => SRejects
      | SOutOfFuel => SDiverges
      end
  | _, _ => SRejects
  end.

(** The sample graph as objects of a store: the graph at reference 0, the
    adjacency dictionaries of [A] to [E] at references 1 to 5. *)
Definition sample_store : store := [
  ODict [("A", VRef 1); ("B", VRef 2); ("C", VRef 3); ("D", VRef 4);
         ("E", VRef 5)];
  ODict [("B", VInt 5); ("C", VInt 10)];
  ODict [("A", VInt 5); ("D", VInt 3)];
  ODict [("A", VInt 10); ("D", VInt 2)];
  ODict [("B", VInt 3); ("C", VInt 2); ("E", VInt 4)];
  ODict [("D", VInt 4)]
]%string.

(** ** The store and the state of the loop *)

(** The store after the call has every object of the store before it,
    unchanged, and three more. *)
Definition extends_by_three (σ σ' : store) : Prop :=
  length σ' = (length σ + 3)%nat ∧
  ∀ l, (l < length σ)%nat → σ' !! l = σ !! l.

(** The variables of a call entered with the store [σ0]: the graph is an
    object of [σ0], the three others are the objects made at lines 17 to
    23. *)
Definition call_locals (σ0 : store) (L : locals) : Prop :=
  (graph_ref L < length σ0)%nat ∧
  distances_ref L = length σ0 ∧
  priority_queue_ref L = S (length σ0) ∧
  visited_ref L = S (S (length σ0)).

(** Every slot of a dictionary holds a number. *)
Definition numeric (d : list (string * value)) : Prop :=
  Forall (λ item, is_Some (number_of item.2)) d.

(** The store [σ] of a call entered with [σ0] holds the table, the
    visited set and the queue of a state of the loop. *)
Record sim (σ0 : store) (L : locals) (ds : table) (vis : gset string)
    (pq : pqueue) (σ : store) : Prop := {
  sim_extends : extends_by_three σ0 σ;
  sim_distances : ∃ d,
    σ !! distances_ref L = Some (ODict d) ∧ table_of d = ds ∧ numeric d;
  sim_visited : σ !! visited_ref L = Some (OSet vis);
  sim_queue : σ !! priority_queue_ref L = Some (OList pq)
}.

(** * Proofs *)

(** ** The priority queue *)

Lemma entry_ltb_true a b : entry_ltb a b = true → a.1 <= b.1.
Proof.
  unfold entry_ltb. destruct (Z.eqb_spec a.1 b.1) as [->|_]; [lia|].
  intros H%Z.ltb_lt. lia.
Qed.

Lemma entry_ltb_false a b : entry_ltb a b = false → b.1 <= a.1.
Proof.
  unfold entry_ltb. destruct (Z.eqb_spec a.1 b.1) as [->|_]; [lia|].
  intros H%Z.ltb_ge. lia.
Qed.

Lemma pop_min_spec l : ∀ x m r,
  pop_min x l = (m, r) →
  x :: l ≡ₚ m :: r ∧ ∀ e, e ∈ x :: l → m.1 <= e.1.
Proof.
  induction l as [|y l IH]; intros x m r; simpl.
  - intros [= <- <-]. split; [done|]. intros e ->%list_elem_of_singleton. lia.
  - destruct (pop_min y l) as [m' r'] eqn:E.
    destruct (IH _ _ _ E) as [Hp Hmin].
    destruct (entry_ltb m' x) eqn:Hlt; intros [= <- <-].
    + split.
      * rewrite Hp. apply Permutation_swap.
      * intros e [->|He]%elem_of_cons; [by apply entry_ltb_true|by apply Hmin].
    + split; [done|].
      intros e [->|He]%elem_of_cons; [lia|].
      apply entry_ltb_false in Hlt. specialize (Hmin _ He). lia.
Qed.

Lemma heappop_None q : heappop q = None ↔ pq_items q = [].
Proof.
  unfold heappop. destruct (pq_items q) as [|x l]; [done|].
  destruct (pop_min x l). split; discriminate.
Qed.

Lemma heappop_Some q e q' :
  heappop q = Some (e, q') →
  pq_items q ≡ₚ e :: pq_items q' ∧
  (∀ e', e' ∈ pq_items q → e.1 <= e'.1) ∧
  pq_pushes q' = pq_pushes q ∧ pq_pops q' = S (pq_pops q).
Proof.
  unfold heappop. destruct (pq_items q) as [|x l]; [done|].
  destruct (pop_min x l) as [m r] eqn:E. intros [= <- <-]; simpl.
  destruct (pop_min_spec _ _ _ _ E) as [Hp Hmin]. done.
Qed.

Lemma string_ltb_lt (a b : string) :
  String.ltb a b = true ↔ String_as_OT.lt a b.
Proof.
  rewrite <- String_as_OT.cmp_lt. unfold String.ltb, String_as_OT.cmp.
  destruct (String.compare a b); split; congruence.
Qed.

Lemma entry_ltb_spec a b : entry_ltb a b = true ↔ entry_lt a b.
Proof.
  unfold entry_ltb, entry_lt. destruct (Z.eqb_spec a.1 b.1) as [Heq|Hne].
  - rewrite string_ltb_lt. split; [by right|]. intros [?|[_ ?]]; [lia|done].
  - rewrite Z.ltb_lt. split; [by left|]. intros [?|[? _]]; [done|lia].
Qed.

Lemma entry_lt_irrefl a : ¬ entry_lt a a.
Proof.
  intros [?|[_ Hlt]]; [lia|]. by apply String_as_OT.lt_not_eq in Hlt.
Qed.

Lemma entry_lt_trans a b c : entry_lt a b → entry_lt b c → entry_lt a c.
Proof.
  intros [?|[? Hab]] [?|[? Hbc]]; try (left; lia).
  right. split; [lia|]. by eapply String_as_OT.lt_trans.
Qed.

Lemma entry_lt_total a b : entry_lt a b ∨ a = b ∨ entry_lt b a.
Proof.
  destruct a as [k x], b as [k' y]. unfold entry_lt. simpl.
  destruct (Z.lt_total k k') as [?|[Hk|?]];
    [by left; left| |by right; right; left].
  subst k'. destruct (String_as_OT.compare x y) as [?|Hxy|?].
  - left. by right.
  - right. left. unfold String_as_OT.eq in Hxy. by subst.
  - right. right. by right.
Qed.

(** The entry that [pop_min] takes out is a least one. *)
Lemma pop_min_least l : ∀ x m r,
  pop_min x l = (m, r) → ∀ e, e ∈ x :: l → ¬ entry_lt e m.
Proof.
  induction l as [|y l IH]; intros x m r; simpl.
  - intros [= <- <-] e ->%list_elem_of_singleton. apply entry_lt_irrefl.
  - destruct (pop_min y l) as [m' r'] eqn:E. specialize (IH _ _ _ E).
    destruct (entry_ltb m' x) eqn:Hlt; intros [= <- <-] e Hin Hem.
    + apply entry_ltb_spec in Hlt.
      apply elem_of_cons in Hin as [->|Hin]; [|by apply (IH e)].
      apply (entry_lt_irrefl m'). by eapply entry_lt_trans.
    + apply elem_of_cons in Hin as [->|Hin]; [by apply entry_lt_irrefl in Hem|].
      assert (¬ entry_lt m' x) as Hmx.
      { intros H%entry_ltb_spec. congruence. }
      destruct (entry_lt_total e m') as [?|[Heq|?]];
        [by apply (IH e)|by subst|].
      apply Hmx. by eapply entry_lt_trans.
Qed.

Lemma heappop_least q e q' :
  heappop q = Some (e, q') → ∀ e', e' ∈ pq_items q → ¬ entry_lt e' e.
Proof.
  unfold heappop. destruct (pq_items q) as [|x l]; [done|].
  destruct (pop_min x l) as [m r] eqn:E. intros [= <- <-].
  by eapply pop_min_least.
Qed.

Lemma heappop_length q e q' :
  heappop q = Some (e, q') → length (pq_items q) = S (length (pq_items q')).
Proof. intros (Hp & _)%heappop_Some. by rewrite Hp. Qed.

Lemma popped_in_queue q e q' : heappop q = Some (e, q') → e ∈ pq_items q.
Proof.
  intros (Hp & _)%heappop_Some. rewrite Hp. apply elem_of_cons. by left.
Qed.

Lemma rest_in_queue q e q' e' :
  heappop q = Some (e, q') → e' ∈ pq_items q' → e' ∈ pq_items q.
Proof.
  intros (Hp & _)%heappop_Some Hin. rewrite Hp. apply elem_of_cons. by right.
Qed.

Lemma queue_split q e q' e' :
  heappop q = Some (e, q') → e' ∈ pq_items q → e' = e ∨ e' ∈ pq_items q'.
Proof. intros (Hp & _)%heappop_Some. rewrite Hp. apply elem_of_cons. Qed.

Lemma popped_least q k v q' k' x :
  heappop q = Some ((k, v), q') → (k', x) ∈ pq_items q → k <= k'.
Proof. intros (_ & Hmin & _)%heappop_Some Hin. apply (Hmin _ Hin). Qed.

(** ** One relaxation *)

Lemma relax_cases vis k acc u w acc' :
  relax vis k acc (u, w) = Ok acc' →
  (acc' = acc ∧
   (u ∈ vis ∨ ∃ du, acc.1 !! u = Some (Fin du) ∧ du <= k + w)) ∨
  ((u ∉ vis) ∧ ∃ old,
     acc.1 !! u = Some old ∧ dist_ltb (k + w) old = true ∧
     acc' = (<[u := Fin (k + w)]> acc.1, heappush acc.2 (k + w, u))).
Proof.
  unfold relax. destruct (decide (u ∈ vis)) as [Hin|Hnin].
  { intros [= <-]. left. auto. }
  destruct (acc.1 !! u) as [old|] eqn:Hu; [|done].
  destruct (dist_ltb (k + w) old) eqn:Hlt; intros [= <-].
  - right. eauto.
  - left. split; [done|]. right.
    destruct old as [d|]; [|done]. simpl in Hlt. apply Z.ltb_ge in Hlt. eauto.
Qed.

Lemma relax_Raise vis k acc u w e :
  relax vis k acc (u, w) = Raise e →
  (u ∉ vis) ∧ acc.1 !! u = None ∧ e = KeyError u.
Proof.
  unfold relax. destruct (decide (u ∈ vis)); [done|].
  destruct (acc.1 !! u) as [old|] eqn:Hu.
  - by destruct (dist_ltb (k + w) old).
  - by intros [= <-].
Qed.

Lemma dist_ltb_Fin n old :
  dist_ltb n old = true → ∀ d, old = Fin d → n < d.
Proof. intros H d ->. by apply Z.ltb_lt. Qed.

(** ** The [for] loop *)

Lemma for_items_snoc vis k items : ∀ acc item,
  for_items vis k acc (items ++ [item]) =
  acc' ← for_items vis k acc items; relax vis k acc' item.
Proof.
  induction items as [|it items IH]; intros acc item; simpl.
  - unfold mbind, result_bind. by destruct (relax vis k acc item).
  - unfold mbind, result_bind at 1 3. destruct (relax vis k acc it); [|done].
    apply IH.
Qed.

Lemma for_items_ind (P : list (string * Z) → table * pqueue → Prop)
    vis k :
  ∀ items acc res,
  P [] acc →
  (∀ seen it a a',
     it ∈ items → P seen a → relax vis k a it = Ok a' →
     P (seen ++ [it]) a') →
  for_items vis k acc items = Ok res →
  P items res.
Proof.
  induction items as [|it items IH] using rev_ind; intros acc res H0 Hstep.
  - by intros [= <-].
  - rewrite for_items_snoc. unfold mbind, result_bind.
    destruct (for_items vis k acc items) as [a|] eqn:E; [|done].
    intros Hr. eapply Hstep; [set_solver| |exact Hr].
    eapply IH; [done| |done].
    intros ???? Hin. apply Hstep. set_solver.
Qed.

Lemma for_items_Raise vis k : ∀ items acc e,
  for_items vis k acc items = Raise e →
  ∃ seen it rest a,
    items = seen ++ it :: rest ∧
    for_items vis k acc seen = Ok a ∧ relax vis k a it = Raise e.
Proof.
  induction items as [|it items IH]; intros acc e; simpl; [done|].
  unfold mbind, result_bind.
  destruct (relax vis k acc it) as [a|e'] eqn:E.
  - intros (seen & it' & rest & a' & -> & Hs & Hr)%IH.
    exists (it :: seen), it', rest, a'. simpl. unfold mbind, result_bind.
    by rewrite E.
  - intros [= <-]. by exists [], it, items, acc.
Qed.

(** ** The invariant of the [for] loop *)

Ltac open_relax_inv H :=
  pose proof (ri_dom _ _ _ _ _ _ _ _ H) as ri_dom0;
  pose proof (ri_frame _ _ _ _ _ _ _ _ H) as ri_frame0;
  pose proof (ri_queue _ _ _ _ _ _ _ _ H) as ri_queue0;
  pose proof (ri_cover _ _ _ _ _ _ _ _ H) as ri_cover0;
  pose proof (ri_path _ _ _ _ _ _ _ _ H) as ri_path0;
  pose proof (ri_mono _ _ _ _ _ _ _ _ H) as ri_mono0;
  pose proof (ri_seen _ _ _ _ _ _ _ _ H) as ri_seen0;
  pose proof (ri_keys _ _ _ _ _ _ _ _ H) as ri_keys0;
  pose proof (ri_old _ _ _ _ _ _ _ _ H) as ri_old0;
  pose proof (ri_pops _ _ _ _ _ _ _ _ H) as ri_pops0;
  pose proof (ri_count _ _ _ _ _ _ _ _ H) as ri_count0;
  pose proof (ri_pushes _ _ _ _ _ _ _ _ H) as ri_pushes0;
  clear H.

Section one_iteration.
Context (g : graph_t) (s : string) (st : state).
Context (k : Z) (v : string) (q0 : pqueue).
Context (Hinv : basic_inv g s st).
Context (Hpop : heappop (priority_queue st) = Some ((k, v), q0)).

(** The popped distance of a vertex not yet visited is its table entry. *)
Lemma popped_dist : v ∉ visited st → distances st !! v = Some (Fin k).
Proof.
  intros Hv.
  destruct (bi_queue _ _ _ Hinv _ _ (popped_in_queue _ _ _ Hpop))
    as (d & Hd & Hle).
  pose proof (bi_cover _ _ _ Hinv _ _ Hv Hd) as Hin.
  apply (popped_least _ _ _ _ _ _ Hpop) in Hin.
  rewrite Hd. do 2 f_equal. lia.
Qed.

Context (Hv : v ∉ visited st).

Lemma relax_inv_init :
  relax_inv g s st ({[v]} ∪ visited st) k q0 [] (distances st, q0).
Proof.
  split; simpl; try done; try lia.
  - apply Hinv.
  - intros k' x Hin. apply (bi_queue _ _ _ Hinv).
    by eapply rest_in_queue.
  - intros x d Hx Hd.
    assert (x ∉ visited st) as Hx' by set_solver.
    destruct (queue_split _ _ _ _ Hpop (bi_cover _ _ _ Hinv _ _ Hx' Hd))
      as [[= -> ->]|]; [set_solver|done].
  - apply Hinv.
  - intros x d Hd. exists d. split; [done|lia].
  - intros u w Hin. by apply elem_of_nil in Hin.
  - intros k' x Hin. by left.
Qed.

Lemma relax_inv_step seen a u w a' :
  edge g v u w →
  relax_inv g s st ({[v]} ∪ visited st) k q0 seen a →
  relax ({[v]} ∪ visited st) k a (u, w) = Ok a' →
  relax_inv g s st ({[v]} ∪ visited st) k q0 (seen ++ [(u, w)]) a'.
Proof.
  intros He Hr Hrel.
  destruct (relax_cases _ _ _ _ _ _ Hrel)
    as [[-> Hdone]|(Hu & old & Hold & Hlt & ->)].
  - open_relax_inv Hr. split; try done.
    + intros u0 w0 [Hin|[= -> ->]%list_elem_of_singleton]%elem_of_app; auto.
    + intros k' x Hin. destruct (ri_keys0 _ _ Hin) as [|(w0 & Hw0 & ->)];
        [by left|right]. exists w0. split; [|done].
      apply elem_of_app. by left.
    + rewrite length_app. simpl. lia.
  - pose proof (dist_ltb_Fin _ _ Hlt) as Hlt'.
    open_relax_inv Hr. simpl in *. split; simpl.
    + rewrite dom_insert_L, <- ri_dom0. apply elem_of_dom_2 in Hold.
      apply subseteq_union_1_L. by apply singleton_subseteq_l.
    + intros x Hx. rewrite lookup_insert_ne; [by apply ri_frame0|].
      intros ->. done.
    + intros k' x [[= -> ->]|Hin]%elem_of_cons.
      * exists (k + w). rewrite lookup_insert_eq. split; [done|lia].
      * destruct (ri_queue0 _ _ Hin) as (d & Hd & Hle).
        destruct (decide (u = x)) as [->|Hne].
        -- exists (k + w). rewrite lookup_insert_eq. split; [done|].
           rewrite Hd in Hold. injection Hold as <-.
           specialize (Hlt' _ eq_refl). lia.
        -- exists d. by rewrite lookup_insert_ne.
    + intros x d Hx. destruct (decide (u = x)) as [->|Hne].
      * rewrite lookup_insert_eq. intros [= <-]. apply elem_of_cons. by left.
      * rewrite lookup_insert_ne by done. intros Hd.
        apply elem_of_cons. right. by apply ri_cover0.
    + intros x d. destruct (decide (u = x)) as [->|Hne].
      * rewrite lookup_insert_eq. intros [= <-].
        eapply path_step; [|exact He].
        apply (bi_path _ _ _ Hinv). by apply popped_dist.
      * rewrite lookup_insert_ne by done. apply ri_path0.
    + intros x d Hd. destruct (ri_mono0 _ _ Hd) as (d' & Hd' & Hle).
      destruct (decide (u = x)) as [->|Hne].
      * exists (k + w). rewrite lookup_insert_eq. split; [done|].
        rewrite Hd' in Hold. injection Hold as <-.
        specialize (Hlt' _ eq_refl). lia.
      * exists d'. by rewrite lookup_insert_ne.
    + intros u0 w0 [Hin|[= -> ->]%list_elem_of_singleton]%elem_of_app.
      * destruct (ri_seen0 _ _ Hin) as [|(du & Hdu & Hle)]; [by left|right].
        destruct (decide (u = u0)) as [->|Hne].
        -- exists (k + w). rewrite lookup_insert_eq. split; [done|].
           rewrite Hdu in Hold. injection Hold as <-.
           specialize (Hlt' _ eq_refl). lia.
        -- exists du. by rewrite lookup_insert_ne.
      * right. exists (k + w). rewrite lookup_insert_eq. split; [done|lia].
    + intros k' x [[= -> ->]|Hin]%elem_of_cons.
      * right. exists w. split; [|done].
        apply elem_of_app. right. by apply list_elem_of_singleton.
      * destruct (ri_keys0 _ _ Hin) as [|(w0 & Hw0 & ->)]; [by left|right].
        exists w0. split; [|done]. apply elem_of_app. by left.
    + intros e Hin. apply elem_of_cons. right. by apply ri_old0.
    + done.
    + lia.
    + rewrite length_app. simpl. lia.
Qed.

Lemma for_items_relax_inv items res :
  (∀ u w, (u, w) ∈ items → edge g v u w) →
  for_items ({[v]} ∪ visited st) k (distances st, q0) items = Ok res →
  relax_inv g s st ({[v]} ∪ visited st) k q0 items res.
Proof.
  intros Hedges Hfor.
  eapply (for_items_ind
            (λ seen a, relax_inv g s st ({[v]} ∪ visited st) k q0 seen a));
    [apply relax_inv_init| |exact Hfor].
  intros seen [u w] a a' Hin Hr Hrel. by eapply relax_inv_step; eauto.
Qed.
End one_iteration.

(** ** Counting edges *)

Lemma pending_empty g : pending g ∅ = edge_count g.
Proof.
  unfold pending, edge_count. induction (map_to_list g) as [|[x a] l IH];
    [done|].
  rewrite !fmap_cons. cbn [sum_list sum_list_with]. by rewrite IH.
Qed.

Lemma open_degree_absent (vis : gset string) v x a :
  x ≠ v → open_degree ({[v]} ∪ vis) (x, a) = open_degree vis (x, a).
Proof.
  intros Hne. unfold open_degree. simpl.
  destruct (decide (x ∈ vis)) as [Hx|Hx].
  - rewrite decide_True; [done|]. apply elem_of_union. by right.
  - rewrite decide_False; [done|].
    intros [->%elem_of_singleton|?]%elem_of_union; done.
Qed.

Lemma pending_list_absent (l : list (string * list (string * Z))) v vis :
  v ∉ l.*1 →
  sum_list (open_degree ({[v]} ∪ vis) <$> l) =
  sum_list (open_degree vis <$> l).
Proof.
  induction l as [|[x a] l IH]; [done|].
  rewrite !fmap_cons. cbn [sum_list sum_list_with fst].
  intros Hv. apply not_elem_of_cons in Hv as [Hne Hv]. rewrite (IH Hv).
  by rewrite open_degree_absent.
Qed.

Lemma pending_list_visit (l : list (string * list (string * Z))) v adj vis :
  NoDup l.*1 → (v, adj) ∈ l → v ∉ vis →
  (sum_list (open_degree ({[v]} ∪ vis) <$> l) + length adj =
   sum_list (open_degree vis <$> l))%nat.
Proof.
  induction l as [|[x a] l IH].
  { intros _ Hin. by apply elem_of_nil in Hin. }
  rewrite !fmap_cons. cbn [sum_list sum_list_with fst].
  intros [Hx Hnd]%NoDup_cons [[= <- <-]|Hin]%elem_of_cons Hv.
  - rewrite (pending_list_absent _ _ _ Hx). unfold open_degree. simpl.
    rewrite decide_True by set_solver. rewrite decide_False by done.
    unfold id. lia.
  - assert (x ≠ v) as Hne.
    { intros ->. apply Hx. apply list_elem_of_fmap. by exists (v, adj). }
    rewrite <- (IH Hnd Hin Hv). rewrite open_degree_absent by done.
    unfold id. lia.
Qed.

Lemma pending_visit g v adj vis :
  g !! v = Some adj → v ∉ vis →
  (pending g ({[v]} ∪ vis) + length adj = pending g vis)%nat.
Proof.
  intros Hg Hv. apply pending_list_visit; [|by apply elem_of_map_to_list|done].
  apply NoDup_fst_map_to_list.
Qed.

(** ** Shape of an iteration that goes on *)

Lemma iteration_Continue st st' :
  iteration st = Continue st' →
  ∃ k v q0,
    heappop (priority_queue st) = Some ((k, v), q0) ∧
    ((v ∈ visited st ∧
      st' = {| graph := graph st; distances := distances st;
               visited := visited st; priority_queue := q0 |}) ∨
     ((v ∉ visited st) ∧ ∃ adj ds pq',
        graph st !! v = Some adj ∧
        for_items ({[v]} ∪ visited st) k (distances st, q0) adj
          = Ok (ds, pq') ∧
        st' = {| graph := graph st; distances := ds;
                 visited := {[v]} ∪ visited st; priority_queue := pq' |})).
Proof.
  unfold iteration.
  destruct (heappop (priority_queue st)) as [[[k v] q0]|] eqn:Hpop; [|done].
  destruct (decide (v ∈ visited st)) as [Hv|Hv].
  - intros [= <-]. exists k, v, q0. split; [done|]. by left.
  - destruct (graph st !! v) as [adj|] eqn:Hadj; [|done].
    destruct (for_items _ _ _ _) as [[ds pq']|] eqn:Hfor; [|done].
    intros [= <-]. exists k, v, q0. split; [done|]. right.
    split; [done|]. by exists adj, ds, pq'.
Qed.

Lemma items_are_edges (g : graph_t) v adj :
  g !! v = Some adj →
  ∀ u w, (u, w) ∈ adj ↔ edge g v u w.
Proof.
  intros Hg u w. split.
  - intros Hu. by exists adj.
  - intros (adj' & Hg' & Hu). congruence.
Qed.

(** ** The basic invariant *)

Lemma basic_inv_init g s : s ∈ dom g → basic_inv g s (init_state g s).
Proof.
  intros Hs.
  assert (∀ v d, (<[s := Fin 0]> ((λ _, Inf) <$> g) : table) !! v
                 = Some (Fin d) → v = s ∧ d = 0) as Hfin.
  { intros v d. destruct (decide (s = v)) as [->|Hne].
    - rewrite lookup_insert_eq. by intros [= <-].
    - rewrite lookup_insert_ne by done. rewrite lookup_fmap.
      by destruct (g !! v). }
  split; simpl.
  - done.
  - rewrite dom_insert_L, dom_fmap_L.
    apply subseteq_union_1_L. by apply singleton_subseteq_l.
  - rewrite lookup_insert_eq. split; [done|]. by right.
  - intros k x [= -> ->]%list_elem_of_singleton. exists 0.
    rewrite lookup_insert_eq. split; [done|lia].
  - intros v d _ [-> ->]%Hfin. by apply list_elem_of_singleton.
  - intros v d [-> ->]%Hfin. constructor.
  - intros v Hv. by apply not_elem_of_empty in Hv.
  - intros v u w Hv. by apply not_elem_of_empty in Hv.
  - done.
  - rewrite pending_empty. simpl. lia.
Qed.

Lemma basic_inv_step g s st st' :
  basic_inv g s st → iteration st = Continue st' → basic_inv g s st'.
Proof.
  intros Hinv (k & v & q0 & Hpop & Hcase)%iteration_Continue.
  pose proof (heappop_Some _ _ _ Hpop) as (Hperm & Hmin & Hpu & Hpo).
  pose proof (heappop_length _ _ _ Hpop) as Hlen.
  destruct Hcase as [[Hv ->]|(Hv & adj & ds & pq' & Hadj & Hfor & ->)].
  - split; simpl; try apply Hinv.
    + split; [apply Hinv|]. left.
      destruct (bi_start _ _ _ Hinv) as [_ [?|[He _]]]; [done|].
      rewrite He in Hv. by apply not_elem_of_empty in Hv.
    + intros k' x Hin. apply (bi_queue _ _ _ Hinv).
      by eapply rest_in_queue.
    + intros x d Hx Hd.
      destruct (queue_split _ _ _ _ Hpop (bi_cover _ _ _ Hinv _ _ Hx Hd))
        as [[= -> ->]|]; done.
    + pose proof (bi_count _ _ _ Hinv). lia.
    + rewrite Hpu. apply Hinv.
  - rewrite (bi_graph _ _ _ Hinv) in Hadj.
    pose proof (popped_dist _ _ _ _ _ _ Hinv Hpop Hv) as Hk.
    assert (relax_inv g s st ({[v]} ∪ visited st) k q0 adj (ds, pq'))
      as Hr.
    { eapply for_items_relax_inv; eauto.
      intros u w Hin. by apply (items_are_edges g v adj). }
    open_relax_inv Hr. simpl in *.
    assert (∀ x, x ∈ {[v]} ∪ visited st → ∃ d, ds !! x = Some (Fin d))
      as Hvis.
    { intros x Hx. rewrite ri_frame0 by done.
      apply elem_of_union in Hx as [->%elem_of_singleton|Hx]; [by exists k|].
      by apply (bi_visited _ _ _ Hinv). }
    split; simpl; try done.
    + apply Hinv.
    + assert (s ∈ {[v]} ∪ visited st) as Hs.
      { apply elem_of_union.
        destruct (bi_start _ _ _ Hinv) as [_ [?|[_ He]]]; [by right|].
        pose proof (popped_in_queue _ _ _ Hpop) as Hin. rewrite He in Hin.
        apply list_elem_of_singleton in Hin as [= -> ->].
        left. by apply elem_of_singleton. }
      split; [|by left]. rewrite ri_frame0 by done. apply Hinv.
    + intros x u w Hx He.
      apply elem_of_union in Hx as [->%elem_of_singleton|Hx].
      * apply (items_are_edges g v adj Hadj) in He.
        destruct (ri_seen0 _ _ He) as [Hu|(du & Hdu & _)]; [by apply Hvis|].
        by exists du.
      * destruct (bi_edges _ _ _ Hinv _ _ _ Hx He) as (d & Hd).
        destruct (ri_mono0 _ _ Hd) as (d' & Hd' & _). by exists d'.
    + pose proof (bi_count _ _ _ Hinv). lia.
    + pose proof (bi_pushes _ _ _ Hinv).
      pose proof (pending_visit g v adj (visited st) Hadj Hv).
      lia.
Qed.

(** ** Hypotheses on the graph, in terms of edges *)

Lemma closed_edge g v u w : closed g → edge g v u w → u ∈ dom g.
Proof.
  intros Hc (adj & Hv & Hu). specialize (Hc _ _ Hv). simpl in Hc.
  rewrite Forall_forall in Hc. exact (Hc _ Hu).
Qed.

Lemma nonneg_edge g v u w : nonneg g → edge g v u w → 0 <= w.
Proof.
  intros Hn (adj & Hv & Hu). specialize (Hn _ _ Hv). simpl in Hn.
  rewrite Forall_forall in Hn. exact (Hn _ Hu).
Qed.

Lemma edge_closed g : (∀ v u w, edge g v u w → u ∈ dom g) → closed g.
Proof.
  intros H v adj Hv. apply Forall_forall. intros [u w] Hu.
  apply (H v u w). by exists adj.
Qed.

Lemma edge_nonneg g : (∀ v u w, edge g v u w → 0 <= w) → nonneg g.
Proof.
  intros H v adj Hv. apply Forall_forall. intros [u w] Hu.
  apply (H v u w). by exists adj.
Qed.

(** ** The invariant for non-negative weights *)

Lemma dijkstra_inv_init g s : dijkstra_inv g (init_state g s).
Proof.
  split; simpl.
  - intros u du k x Hu. by apply not_elem_of_empty in Hu.
  - intros v u w dv du Hv. by apply not_elem_of_empty in Hv.
Qed.

Lemma dijkstra_inv_step g s st st' :
  nonneg g → basic_inv g s st → dijkstra_inv g st →
  iteration st = Continue st' → dijkstra_inv g st'.
Proof.
  intros Hnn Hinv Hdi (k & v & q0 & Hpop & Hcase)%iteration_Continue.
  pose proof (popped_in_queue _ _ _ Hpop) as Hkv.
  destruct Hcase as [[Hv ->]|(Hv & adj & ds & pq' & Hadj & Hfor & ->)].
  - split; simpl.
    + intros u du k' x Hu Hdu Hin. eapply (di_low _ _ Hdi); eauto.
      by eapply rest_in_queue.
    + apply Hdi.
  - rewrite (bi_graph _ _ _ Hinv) in Hadj.
    pose proof (popped_dist _ _ _ _ _ _ Hinv Hpop Hv) as Hk.
    assert (relax_inv g s st ({[v]} ∪ visited st) k q0 adj (ds, pq'))
      as Hr.
    { eapply for_items_relax_inv; eauto.
      intros u w Hin. by apply (items_are_edges g v adj). }
    open_relax_inv Hr. simpl in *.
    (* every vertex visited so far is at most [k] away *)
    assert (∀ u du, u ∈ {[v]} ∪ visited st → ds !! u = Some (Fin du) →
                    du <= k) as Hlow.
    { intros u du Hu. rewrite ri_frame0 by done.
      apply elem_of_union in Hu as [->%elem_of_singleton|Hu].
      - rewrite Hk. intros [= <-]. lia.
      - intros Hdu. by eapply (di_low _ _ Hdi). }
    split; simpl.
    + intros u du k' x Hu Hdu Hin.
      specialize (Hlow _ _ Hu Hdu).
      destruct (ri_keys0 _ _ Hin) as [Hold|(w & Hw & ->)].
      * pose proof (rest_in_queue _ _ _ _ Hpop Hold) as Hq.
        pose proof (popped_least _ _ _ _ _ _ Hpop Hq). lia.
      * apply (items_are_edges g v adj Hadj) in Hw.
        pose proof (nonneg_edge _ _ _ _ Hnn Hw). lia.
    + intros x u w dx du Hx He Hdx Hdu.
      pose proof (nonneg_edge _ _ _ _ Hnn He) as Hw.
      pose proof Hdx as Hdx'. rewrite ri_frame0 in Hdx' by done.
      apply elem_of_union in Hx as [->%elem_of_singleton|Hx].
      * rewrite Hk in Hdx'. injection Hdx' as <-.
        apply (items_are_edges g v adj Hadj) in He.
        destruct (ri_seen0 _ _ He) as [Hu|(du' & Hdu' & Hle)].
        -- specialize (Hlow _ _ Hu Hdu). lia.
        -- rewrite Hdu in Hdu'. injection Hdu' as <-. lia.
      * destruct (bi_edges _ _ _ Hinv _ _ _ Hx He) as (d0 & Hd0).
        pose proof (di_relaxed _ _ Hdi _ _ _ _ _ Hx He Hdx' Hd0).
        destruct (ri_mono0 _ _ Hd0) as (d' & Hd' & Hle).
        rewrite Hdu in Hd'. injection Hd' as <-. lia.
Qed.

(** ** Where an iteration can raise *)

Lemma iteration_Throw g s st e :
  basic_inv g s st → iteration st = Throw e →
  ∃ v u w W,
    path g s v W ∧ edge g v u w ∧ (u ∉ dom g) ∧ (u ∉ visited st) ∧
    e = KeyError u.
Proof.
  intros Hinv. unfold iteration.
  destruct (heappop (priority_queue st)) as [[[k v] q0]|] eqn:Hpop; [|done].
  destruct (decide (v ∈ visited st)) as [Hv|Hv]; [done|].
  pose proof (popped_dist _ _ _ _ _ _ Hinv Hpop Hv) as Hk.
  rewrite (bi_graph _ _ _ Hinv).
  destruct (g !! v) as [adj|] eqn:Hadj.
  - destruct (for_items _ _ _ _) as [[ds pq']|e'] eqn:Hfor; [done|].
    intros [= <-].
    apply for_items_Raise in Hfor
      as (seen & [u w] & rest & a & Hitems & Hseen & Hrel).
    apply relax_Raise in Hrel as (Hu & Hnone & ->).
    assert (edge g v u w) as He.
    { apply (items_are_edges g v adj Hadj). rewrite Hitems.
      apply elem_of_app. right. apply elem_of_cons. by left. }
    assert (relax_inv g s st ({[v]} ∪ visited st) k q0 seen a) as Hr.
    { eapply for_items_relax_inv; eauto.
      intros u' w' Hin. apply (items_are_edges g v adj Hadj).
      rewrite Hitems. apply elem_of_app. by left. }
    exists v, u, w, k. split; [by apply (bi_path _ _ _ Hinv)|].
    split; [done|]. split.
    + rewrite <- (ri_dom _ _ _ _ _ _ _ _ Hr). by apply not_elem_of_dom.
    + split; [|done]. intros Hin. apply Hu. apply elem_of_union. by right.
  - apply elem_of_dom_2 in Hk. rewrite (bi_dom _ _ _ Hinv) in Hk.
    apply not_elem_of_dom in Hadj. done.
Qed.

Lemma iteration_no_Throw g s st :
  closed g → basic_inv g s st → ∀ e, iteration st ≠ Throw e.
Proof.
  intros Hc Hinv e (v & u & w & W & _ & He & Hu & _)%(iteration_Throw g s).
  - apply Hu. by eapply closed_edge.
  - done.
Qed.

(** ** Counting iterations *)

Lemma iteration_pops st st' :
  iteration st = Continue st' →
  pq_pops (priority_queue st') = S (pq_pops (priority_queue st)).
Proof.
  intros (k & v & q0 & Hpop & Hcase)%iteration_Continue.
  pose proof (heappop_Some _ _ _ Hpop) as (_ & _ & _ & Hpo).
  destruct Hcase as [[Hv ->]|(Hv & adj & ds & pq' & Hadj & Hfor & ->)];
    simpl; [done|].
  rewrite <- Hpo. clear Hpop Hpo.
  change (pq_pops (ds, pq').2 = pq_pops q0).
  eapply (for_items_ind (λ _ a, pq_pops a.2 = pq_pops q0));
    [| |exact Hfor]; [done|].
  intros seen [u w] a a' _ Ha
    [[-> _]|(_ & old & _ & _ & ->)]%relax_cases; done.
Qed.

Lemma basic_inv_pops g s st :
  basic_inv g s st → (pq_pops (priority_queue st) <= S (edge_count g))%nat.
Proof.
  intros Hinv. pose proof (bi_count _ _ _ Hinv).
  pose proof (bi_pushes _ _ _ Hinv). lia.
Qed.

Lemma iteration_Break st :
  iteration st = Break ↔ pq_items (priority_queue st) = [].
Proof.
  rewrite <- heappop_None. unfold iteration.
  destruct (heappop (priority_queue st)) as [[[k v] q0]|]; [|done].
  split; [|done].
  destruct (decide (v ∈ visited st)); [done|].
  destruct (graph st !! v); [|done].
  by destruct (for_items _ _ _ _) as [[??]|].
Qed.

(** ** The whole loop *)

(** With enough fuel the loop either finishes, with an empty queue, or
    raises what its last iteration raised. *)
Lemma while_loop_spec g s : ∀ fuel st,
  basic_inv g s st →
  (S (edge_count g) < fuel + pq_pops (priority_queue st))%nat →
  (∃ st', while_loop fuel st = Finished st' ∧ rtc step st st' ∧
          basic_inv g s st' ∧ pq_items (priority_queue st') = []) ∨
  (∃ st' e, while_loop fuel st = Raised e ∧ rtc step st st' ∧
            basic_inv g s st' ∧ iteration st' = Throw e).
Proof.
  induction fuel as [|fuel IH]; intros st Hinv Hfuel.
  { pose proof (basic_inv_pops _ _ _ Hinv). lia. }
  simpl. destruct (iteration st) as [st1| |e] eqn:Hit.
  - pose proof (basic_inv_step _ _ _ _ Hinv Hit) as Hinv1.
    pose proof (iteration_pops _ _ Hit) as Hpops.
    destruct (IH st1 Hinv1) as
      [(st' & Hw & Hsteps & Hinv' & Hq)|(st' & e & Hw & Hsteps & Hinv' & He)];
      [lia| |].
    + left. exists st'. split; [done|]. split; [|done].
      by eapply rtc_l.
    + right. exists st', e. split; [done|]. split; [|done].
      by eapply rtc_l.
  - left. exists st. split; [done|]. split; [done|]. split; [done|].
    by apply iteration_Break.
  - right. by exists st, e.
Qed.

Lemma while_loop_dijkstra_inv g s : ∀ fuel st st',
  nonneg g → basic_inv g s st → dijkstra_inv g st →
  while_loop fuel st = Finished st' → dijkstra_inv g st'.
Proof.
  induction fuel as [|fuel IH]; intros st st' Hnn Hinv Hdi; [done|].
  simpl. destruct (iteration st) as [st1| |e] eqn:Hit; [| |done].
  - apply IH; [done| |].
    + by eapply basic_inv_step.
    + by eapply dijkstra_inv_step.
  - by intros [= <-].
Qed.

Lemma while_loop_more_fuel : ∀ fuel fuel' st st',
  (fuel <= fuel')%nat →
  while_loop fuel st = Finished st' → while_loop fuel' st = Finished st'.
Proof.
  induction fuel as [|fuel IH]; intros [|fuel'] st st' Hle; try done; [lia|].
  simpl. destruct (iteration st); [|done..]. apply IH. lia.
Qed.

(** ** Runs from the initial state *)

Lemma run_spec g s :
  s ∈ dom g →
  (∃ st, run g s = Finished st ∧ reachable g s st ∧
         basic_inv g s st ∧ pq_items (priority_queue st) = []) ∨
  (∃ st e, run g s = Raised e ∧ reachable g s st ∧
           basic_inv g s st ∧ iteration st = Throw e).
Proof.
  intros Hs. apply while_loop_spec; [by apply basic_inv_init|]. simpl. lia.
Qed.

Lemma run_closed g s :
  closed g → s ∈ dom g →
  ∃ st, run g s = Finished st ∧ reachable g s st ∧
        basic_inv g s st ∧ pq_items (priority_queue st) = [].
Proof.
  intros Hc Hs. destruct (run_spec g s Hs) as [?|(st & e & _ & _ & Hinv & He)];
    [done|].
  by apply (iteration_no_Throw _ _ _ Hc Hinv) in He.
Qed.

Lemma run_nonneg g s st :
  nonneg g → s ∈ dom g → run g s = Finished st → dijkstra_inv g st.
Proof.
  intros Hnn Hs. apply (while_loop_dijkstra_inv g s); [done| |].
  - by apply basic_inv_init.
  - apply dijkstra_inv_init.
Qed.

Lemma run_absent_start g s : s ∉ dom g → run g s = Raised (KeyError s).
Proof.
  intros Hs. apply not_elem_of_dom in Hs.
  unfold run. cbn [while_loop]. unfold iteration, init_state. simpl.
  rewrite decide_False by apply not_elem_of_empty. by rewrite Hs.
Qed.

Lemma run_never_out_of_fuel g s : run g s ≠ OutOfFuel.
Proof.
  destruct (decide (s ∈ dom g)) as [Hs|Hs].
  - destruct (run_spec g s Hs) as [(st & -> & _)|(st & e & -> & _)]; done.
  - by rewrite run_absent_start.
Qed.

Lemma dijkstra_with_heap_total g s : dijkstra_with_heap g s ≠ Diverges.
Proof.
  unfold dijkstra_with_heap. pose proof (run_never_out_of_fuel g s).
  by destruct (run g s).
Qed.

Lemma reachable_inv g s st :
  s ∈ dom g → reachable g s st → basic_inv g s st.
Proof.
  intros Hs. unfold reachable. apply (rtc_ind_r (basic_inv g s)).
  - by apply basic_inv_init.
  - intros a b _ Hab Ha. by eapply basic_inv_step.
Qed.

(** ** The table when the queue is empty *)

Lemma finished_reached g s st :
  basic_inv g s st → pq_items (priority_queue st) = [] →
  ∀ v W, path g s v W →
  v ∈ visited st ∧ ∃ d, distances st !! v = Some (Fin d).
Proof.
  intros Hinv Hq.
  assert (∀ v d, distances st !! v = Some (Fin d) → v ∈ visited st) as Hfin.
  { intros v d Hd. destruct (decide (v ∈ visited st)) as [|Hv]; [done|].
    pose proof (bi_cover _ _ _ Hinv _ _ Hv Hd) as Hin.
    rewrite Hq in Hin. by apply elem_of_nil in Hin. }
  induction 1 as [|v u W w Hp [Hv _] He].
  - destruct (bi_start _ _ _ Hinv) as [H0 _]. split; [by eapply Hfin|].
    by exists 0.
  - destruct (bi_edges _ _ _ Hinv _ _ _ Hv He) as (d & Hd).
    split; [by eapply Hfin|]. by exists d.
Qed.

Lemma finished_lower g s st :
  basic_inv g s st → dijkstra_inv g st →
  pq_items (priority_queue st) = [] →
  ∀ v W, path g s v W →
  ∃ d, distances st !! v = Some (Fin d) ∧ d <= W.
Proof.
  intros Hinv Hdi Hq. induction 1 as [|v u W w Hp (dv & Hdv & Hle) He].
  - destruct (bi_start _ _ _ Hinv) as [H0 _]. exists 0. split; [done|lia].
  - destruct (finished_reached _ _ _ Hinv Hq _ _ Hp) as [Hv _].
    destruct (bi_edges _ _ _ Hinv _ _ _ Hv He) as (du & Hdu).
    exists du. split; [done|].
    pose proof (di_relaxed _ _ Hdi _ _ _ _ _ Hv He Hdv Hdu). lia.
Qed.

(** What a call returns on a closed graph with a non-negative weights. *)
Lemma returns_shortest g s :
  nonneg g → closed g → s ∈ dom g →
  ∃ t, dijkstra_with_heap g s = Returns t ∧ dom t = dom g ∧
       (∀ v d, t !! v = Some (Fin d) → shortest g s v d) ∧
       (∀ v W, path g s v W → ∃ d, t !! v = Some (Fin d) ∧ d <= W).
Proof.
  intros Hnn Hc Hs.
  destruct (run_closed g s Hc Hs) as (st & Hrun & _ & Hinv & Hq).
  pose proof (run_nonneg g s st Hnn Hs Hrun) as Hdi.
  exists (distances st). unfold dijkstra_with_heap. rewrite Hrun.
  split; [done|]. split; [apply Hinv|]. split.
  - intros v d Hd. split; [by apply (bi_path _ _ _ Hinv)|].
    intros W Hp.
    destruct (finished_lower _ _ _ Hinv Hdi Hq _ _ Hp) as (d' & Hd' & Hle).
    rewrite Hd in Hd'. injection Hd' as <-. done.
  - by apply finished_lower.
Qed.

(** ** Raising the weight of an edge *)

Lemma raise_edge_dom g a b w w' : dom (raise_edge g a b w w') = dom g.
Proof. apply dom_alter_L. Qed.

Lemma raise_edge_new_weight g a b w w' :
  edge g a b w → edge (raise_edge g a b w w') a b w'.
Proof.
  intros (adj & Ha & Hb). exists (set_weight b w w' <$> adj).
  unfold raise_edge. rewrite lookup_alter_eq, Ha. split; [done|].
  apply list_elem_of_fmap. exists (b, w). split; [|done].
  unfold set_weight. by rewrite decide_True.
Qed.

Lemma raise_edge_edge g a b w w' v u x :
  edge (raise_edge g a b w w') v u x →
  (v = a ∧ u = b ∧ x = w' ∧ edge g a b w) ∨ edge g v u x.
Proof.
  unfold raise_edge. intros (adj' & Hv & Hu).
  destruct (decide (a = v)) as [->|Hne].
  - rewrite lookup_alter_eq in Hv.
    destruct (g !! v) as [adj|] eqn:Hadj; [|done].
    injection Hv as <-.
    apply list_elem_of_fmap in Hu as (item & Heq & Hitem).
    unfold set_weight in Heq. destruct (decide (item = (b, w))) as [->|_].
    + injection Heq as -> ->. left. repeat split; try done. by exists adj.
    + subst item. right. by exists adj.
  - rewrite lookup_alter_ne in Hv by done. right. by exists adj'.
Qed.

Lemma raise_edge_path g s a b w w' :
  w <= w' →
  ∀ v W', path (raise_edge g a b w w') s v W' →
  ∃ W, path g s v W ∧ W <= W'.
Proof.
  intros Hle. induction 1 as [|v u W' x _ (W & Hp & HW) Hx].
  - exists 0. split; [constructor|lia].
  - destruct (raise_edge_edge _ _ _ _ _ _ _ _ Hx)
      as [(-> & -> & -> & He)|Hx'].
    + exists (W + w). split; [by eapply path_step|lia].
    + exists (W + x). split; [by eapply path_step|lia].
Qed.

Lemma raise_edge_closed g a b w w' :
  closed g → closed (raise_edge g a b w w').
Proof.
  intros Hc. apply edge_closed. intros v u x Hx.
  rewrite raise_edge_dom.
  destruct (raise_edge_edge _ _ _ _ _ _ _ _ Hx)
    as [(-> & -> & -> & He)|Hx']; by eapply closed_edge.
Qed.

Lemma raise_edge_nonneg g a b w w' :
  w <= w' → nonneg g → nonneg (raise_edge g a b w w').
Proof.
  intros Hle Hn. apply edge_nonneg. intros v u x Hx.
  destruct (raise_edge_edge _ _ _ _ _ _ _ _ Hx)
    as [(-> & -> & -> & He)|Hx'].
  - pose proof (nonneg_edge _ _ _ _ Hn He). lia.
  - by eapply nonneg_edge.
Qed.

(** ** What an iteration does to the visited set and to the table *)

Lemma for_items_frame vis k items acc res x :
  x ∈ vis → for_items vis k acc items = Ok res → res.1 !! x = acc.1 !! x.
Proof.
  intros Hx Hfor.
  eapply (for_items_ind (λ _ a, a.1 !! x = acc.1 !! x));
    [| |exact Hfor]; [done|].
  intros seen [u w] a a' _ Ha
    [[-> _]|(Hu & old & _ & _ & ->)]%relax_cases; [done|].
  simpl. rewrite lookup_insert_ne; [done|]. by intros ->.
Qed.

Lemma step_visited a b :
  step a b →
  visited a ⊆ visited b ∧
  (∀ v, v ∈ visited b → distances b !! v = distances a !! v) ∧
  (visited b = visited a ∨
   ∃ v, (v ∉ visited a) ∧ visited b = {[v]} ∪ visited a).
Proof.
  intros (k & v & q0 & Hpop & Hcase)%iteration_Continue.
  destruct Hcase as [[Hv ->]|(Hv & adj & ds & pq' & Hadj & Hfor & ->)]; simpl.
  - split; [done|]. split; [done|]. by left.
  - split; [set_solver|]. split.
    + intros x Hx. by apply (for_items_frame _ _ _ _ _ _ Hx Hfor).
    + right. by exists v.
Qed.

Lemma steps_visited a c v :
  rtc step a c → v ∈ visited a →
  v ∈ visited c ∧ distances c !! v = distances a !! v.
Proof.
  induction 1 as [|a b c Hab _ IH]; [done|].
  intros Hv. destruct (step_visited _ _ Hab) as (Hsub & Hframe & _).
  assert (v ∈ visited b) as Hvb by (by apply Hsub).
  destruct (IH Hvb) as [Hvc Hd]. split; [done|].
  rewrite Hd. by apply Hframe.
Qed.

Lemma step_graph a b : step a b → graph b = graph a.
Proof.
  intros (k & v & q0 & Hpop & Hcase)%iteration_Continue.
  by destruct Hcase as [[Hv ->]|(Hv & adj & ds & pq' & Hadj & Hfor & ->)].
Qed.

Lemma steps_graph a b : rtc step a b → graph b = graph a.
Proof.
  induction 1 as [|a b c Hab _ IH]; [done|].
  rewrite IH. by apply step_graph.
Qed.

Lemma while_loop_steps : ∀ fuel st st',
  while_loop fuel st = Finished st' → rtc step st st'.
Proof.
  induction fuel as [|fuel IH]; intros st st'; [done|]. simpl.
  destruct (iteration st) as [st1| |e] eqn:Hit; [| |done].
  - intros Hw. eapply rtc_l; [exact Hit|]. by apply IH.
  - by intros [= <-].
Qed.

Lemma path_from_key g s v W u w :
  path g s v W → edge g v u w → s ∈ dom g.
Proof.
  intros Hp. revert u w. induction Hp as [|v' u' W' w' Hp IH He'].
  - intros u w (adj & Hs & _). by apply elem_of_dom_2 in Hs.
  - intros ? ? _. by eapply IH.
Qed.

(** ** What one iteration does to the queue *)

Lemma for_items_pushed vis k items acc res :
  for_items vis k acc items = Ok res →
  ∃ new,
    pq_items res.2 = new ++ pq_items acc.2 ∧
    pq_pushes res.2 = (pq_pushes acc.2 + length new)%nat ∧
    (length new <= length items)%nat.
Proof.
  intros Hfor.
  eapply (for_items_ind (λ seen a, ∃ new,
            pq_items a.2 = new ++ pq_items acc.2 ∧
            pq_pushes a.2 = (pq_pushes acc.2 + length new)%nat ∧
            (length new <= length seen)%nat));
    [| |exact Hfor].
  - exists []. simpl. split; [done|]. split; lia.
  - intros seen [u w] a a' _ (new & Hi & Hp & Hl)
      [[-> _]|(_ & old & _ & _ & ->)]%relax_cases.
    + exists new. rewrite length_app. simpl. split; [done|]. split; lia.
    + exists ((k + w, u) :: new). rewrite length_app. simpl.
      rewrite Hi, Hp. split; [done|]. split; lia.
Qed.

Lemma step_queue a b :
  step a b →
  ∃ e q0 new,
    heappop (priority_queue a) = Some (e, q0) ∧
    pq_items (priority_queue a) ≡ₚ e :: pq_items q0 ∧
    pq_items (priority_queue b) = new ++ pq_items q0 ∧
    pq_pops (priority_queue b) = S (pq_pops (priority_queue a)) ∧
    pq_pushes (priority_queue b)
      = (pq_pushes (priority_queue a) + length new)%nat.
Proof.
  intros Hab. pose proof (iteration_pops _ _ Hab) as Hpops.
  destruct (iteration_Continue _ _ Hab) as (k & v & q0 & Hpop & Hcase).
  pose proof (heappop_Some _ _ _ Hpop) as (Hperm & _ & Hpu & _).
  destruct Hcase as [[Hv ->]|(Hv & adj & ds & pq' & Hadj & Hfor & ->)].
  - exists (k, v), q0, []. simpl in *. repeat split; try done. lia.
  - destruct (for_items_pushed _ _ _ _ _ Hfor) as (new & Hi & Hp & _).
    exists (k, v), q0, new. simpl in *. repeat split; try done. lia.
Qed.

Lemma entered g s st v :
  reachable g s st → v ∈ visited st →
  ∃ a b, reachable g s a ∧ enters v a b ∧ rtc step b st.
Proof.
  unfold reachable. intros Hr. revert v. revert st Hr.
  apply (rtc_ind_r (λ st, ∀ v, v ∈ visited st →
           ∃ a b, rtc step (init_state g s) a ∧ enters v a b ∧
                  rtc step b st)).
  - intros v Hv. by apply not_elem_of_empty in Hv.
  - intros y z Hy Hyz IH v Hv.
    destruct (decide (v ∈ visited y)) as [Hvy|Hvy].
    + destruct (IH v Hvy) as (a & b & Ha & Hab & Hby).
      exists a, b. split; [done|]. split; [done|]. by eapply rtc_r.
    + exists y, z. split; [done|]. by split.
Qed.

Lemma step_deterministic a b b' : step a b → step a b' → b = b'.
Proof. unfold step. congruence. Qed.

Lemma steps_linear x a b :
  rtc step x a → rtc step x b → rtc step a b ∨ rtc step b a.
Proof.
  intros Ha. revert b. induction Ha as [|x y a Hxy Hya IH]; intros b Hb.
  - by left.
  - destruct Hb as [|x y' b Hxy' Hyb].
    + right. by eapply rtc_l.
    + rewrite <- (step_deterministic _ _ _ Hxy Hxy') in Hyb. by apply IH.
Qed.

Lemma enters_unique g s v a b a' b' :
  reachable g s a → enters v a b →
  reachable g s a' → enters v a' b' →
  a' = a ∧ b' = b.
Proof.
  intros Ha Hab Ha' Hab'.
  assert (∀ x y x' y', enters v x y → enters v x' y' → rtc step x x' →
                        x' = x ∧ y' = y) as Hord.
  { intros x y x' y' Hxy Hxy' Hxx'.
    destruct Hxx' as [|x z x' Hxz Hzx'].
    - split; [done|]. destruct Hxy as [Hxy _], Hxy' as [Hxy' _].
      by eapply step_deterministic.
    - destruct Hxy as (Hxy & _ & Hvy).
      rewrite <- (step_deterministic _ _ _ Hxy Hxz) in Hzx'.
      destruct (steps_visited _ _ _ Hzx' Hvy) as [Hvx' _].
      by destruct Hxy' as (_ & Hn & _). }
  destruct (steps_linear _ _ _ Ha Ha') as [Hle|Hle].
  - by eapply Hord.
  - destruct (Hord _ _ _ _ Hab' Hab Hle) as [-> ->]. done.
Qed.

(** ** Dictionaries as lists of items *)

Lemma dict_get_numeric d k v :
  numeric d → dict_get d k = Some v → is_Some (number_of v).
Proof.
  induction d as [|[k' v'] d IH]; [done|].
  intros [Hv Hd]%Forall_cons. simpl.
  destruct (decide (k' = k)); [by intros [= <-]|by apply IH].
Qed.

Lemma table_of_lookup d k :
  table_of d !! k = (λ v, default Inf (number_of v)) <$> dict_get d k.
Proof.
  unfold table_of. induction d as [|[k' v'] d IH]; [done|].
  rewrite fmap_cons, list_to_map_cons. simpl.
  destruct (decide (k' = k)) as [->|Hne].
  - by rewrite lookup_insert_eq.
  - by rewrite lookup_insert_ne.
Qed.

Lemma table_of_dict_set d k v :
  table_of (dict_set d k v) = <[k := default Inf (number_of v)]> (table_of d).
Proof.
  unfold table_of. induction d as [|[k' v'] d IH]; [done|]. simpl.
  destruct (decide (k' = k)) as [->|Hne].
  - rewrite !fmap_cons, !list_to_map_cons. simpl.
    by rewrite insert_insert_eq.
  - rewrite !fmap_cons, !list_to_map_cons. simpl. rewrite IH.
    by apply insert_insert_ne.
Qed.

Lemma numeric_dict_set d k v :
  is_Some (number_of v) → numeric d → numeric (dict_set d k v).
Proof.
  intros Hv. induction d as [|[k' v'] d IH]; simpl.
  - intros _. by apply Forall_singleton.
  - intros [Hv' Hd]%Forall_cons. destruct (decide (k' = k)).
    + by apply Forall_cons.
    + apply Forall_cons. split; [done|by apply IH].
Qed.

(** ** The graph that a store holds *)

Lemma graph_of_store_lookup σ l g :
  graph_of_store σ l = Some g →
  ∃ d, read_dict σ l = Some d ∧
       ∀ v, match g !! v with
            | Some adj =>
                ∃ a items, dict_get d v = Some (VRef a) ∧
                           read_dict σ a = Some items ∧
                           Forall2 (λ x y, weight_of x = Some y) items adj
            | None => dict_get d v = None
            end.
Proof.
  unfold graph_of_store. destruct (read_dict σ l) as [d|]; [|done].
  destruct (mapM (adjacency_of σ) d) as [entries|] eqn:Hm; [|done].
  intros [= <-]. exists d. split; [done|].
  apply mapM_Some in Hm. intros v.
  induction Hm as [|[k x] [k' adj] d entries Hx _ IH]; [done|].
  unfold adjacency_of in Hx. simpl in Hx.
  destruct x as [| |a]; try done.
  destruct (read_dict σ a) as [items|] eqn:Ha; [|done].
  destruct (mapM weight_of items) as [adj'|] eqn:Hw; [|done].
  injection Hx as <- <-. rewrite list_to_map_cons. simpl.
  destruct (decide (k = v)) as [->|Hne].
  - rewrite lookup_insert_eq. exists a, items.
    split; [done|]. split; [done|]. by apply mapM_Some.
  - by rewrite lookup_insert_ne.
Qed.

Lemma read_dict_lt σ l d : read_dict σ l = Some d → (l < length σ)%nat.
Proof.
  unfold read_dict. destruct (σ !! l) eqn:Hl; [|done].
  intros _. by eapply lookup_lt_Some.
Qed.

Lemma read_dict_agree σ σ' l d :
  (∀ l, (l < length σ)%nat → σ' !! l = σ !! l) →
  read_dict σ l = Some d → read_dict σ' l = Some d.
Proof.
  intros Hag Hd. pose proof (read_dict_lt _ _ _ Hd) as Hl.
  unfold read_dict in *. by rewrite Hag.
Qed.

(** The graph is read from objects that are there: a store that agrees
    on them holds the same graph. *)
Lemma graph_of_store_agree σ σ' l g :
  (∀ l, (l < length σ)%nat → σ' !! l = σ !! l) →
  graph_of_store σ l = Some g → graph_of_store σ' l = Some g.
Proof.
  intros Hag. unfold graph_of_store.
  destruct (read_dict σ l) as [d|] eqn:Hd; [|done].
  rewrite (read_dict_agree _ _ _ _ Hag Hd).
  destruct (mapM (adjacency_of σ) d) as [entries|] eqn:Hm; [|done].
  intros [= <-].
  assert (mapM (adjacency_of σ') d = Some entries) as ->; [|done].
  apply mapM_Some. apply mapM_Some in Hm.
  eapply Forall2_impl; [exact Hm|]. intros [k x] y. unfold adjacency_of.
  simpl. destruct x as [| |a]; try done.
  destruct (read_dict σ a) as [items|] eqn:Ha; [|done].
  by rewrite (read_dict_agree _ _ _ _ Hag Ha).
Qed.

(** The table that line 17 and line 18 make. *)
Lemma initial_table σ l g d start :
  graph_of_store σ l = Some g → read_dict σ l = Some d →
  table_of (dict_set ((λ item, (item.1, VInf)) <$> d) start (VInt 0))
  = <[start := Fin 0]> ((λ _, Inf) <$> g) ∧
  numeric (dict_set ((λ item, (item.1, VInf)) <$> d) start (VInt 0)).
Proof.
  unfold graph_of_store. intros Hg Hd. rewrite Hd in Hg.
  destruct (mapM (adjacency_of σ) d) as [entries|] eqn:Hm; [|done].
  injection Hg as <-. apply mapM_Some in Hm. split.
  - rewrite table_of_dict_set. simpl. f_equal.
    unfold table_of. clear Hd.
    induction Hm as [|[k x] [k' adj] d entries Hx _ IH].
    { simpl. by rewrite fmap_empty. }
    unfold adjacency_of in Hx. simpl in Hx.
    destruct x as [| |a]; try done.
    destruct (read_dict σ a) as [items|]; [|done].
    destruct (mapM weight_of items) as [adj'|]; [|done].
    injection Hx as <- <-.
    rewrite !fmap_cons, !list_to_map_cons, fmap_insert. simpl.
    by rewrite IH.
  - apply numeric_dict_set; [by eexists|].
    apply Forall_fmap, Forall_true. intros item. simpl. by eexists.
Qed.

(** ** The store follows the state of the loop *)

Lemma extends_by_three_insert σ0 σ l o :
  (length σ0 <= l)%nat → extends_by_three σ0 σ →
  extends_by_three σ0 (<[l := o]> σ).
Proof.
  intros Hl [Hlen Hold]. split; [by rewrite length_insert|].
  intros l' Hl'. rewrite list_lookup_insert_ne by lia. by apply Hold.
Qed.

Section simulation.
Context (σ0 : store) (L : locals) (HL : call_locals σ0 L).

Lemma sim_pop ds vis pq pq' σ :
  sim σ0 L ds vis pq σ →
  sim σ0 L ds vis pq' (<[priority_queue_ref L := OList pq']> σ).
Proof.
  destruct HL as (Hg & Hd & Hq & Hv).
  intros [Hext Hds Hvis Hpq]. split.
  - apply extends_by_three_insert; [lia|done].
  - destruct Hds as (d & Hd' & ?). exists d.
    rewrite list_lookup_insert_ne by lia. done.
  - rewrite list_lookup_insert_ne by lia. done.
  - apply list_lookup_insert_eq. by eapply lookup_lt_Some.
Qed.

Lemma sim_add ds vis vis' pq σ :
  sim σ0 L ds vis pq σ →
  sim σ0 L ds vis' pq (<[visited_ref L := OSet vis']> σ).
Proof.
  destruct HL as (Hg & Hd & Hq & Hv).
  intros [Hext Hds Hvis Hpq]. split.
  - apply extends_by_three_insert; [lia|done].
  - destruct Hds as (d & Hd' & ?). exists d.
    rewrite list_lookup_insert_ne by lia. done.
  - apply list_lookup_insert_eq. by eapply lookup_lt_Some.
  - rewrite list_lookup_insert_ne by lia. done.
Qed.

Lemma sim_read_old ds vis pq σ l d :
  sim σ0 L ds vis pq σ → read_dict σ0 l = Some d → read_dict σ l = Some d.
Proof.
  intros [[_ Hold] _ _ _] Hd. by eapply read_dict_agree.
Qed.

Lemma relax_store_sim ds vis pq σ k u w :
  sim σ0 L ds vis pq σ →
  match relax vis k (ds, pq) (u, w) with
  | Ok (ds', pq') =>
      ∃ σ', relax_store L k σ (u, VInt w) = SOk σ' ∧ sim σ0 L ds' vis pq' σ'
  | Raise e => relax_store L k σ (u, VInt w) = SRaise e σ
  end.
Proof.
  intros Hsim. pose proof Hsim as [Hext (d & Hd & Htab & Hnum) Hvis Hpq].
  destruct HL as (Hg & Hdr & Hqr & Hvr).
  subst ds.
  unfold relax, relax_store, read_set, read_dict. rewrite Hvis, Hd. simpl.
  destruct (decide (u ∈ vis)) as [Hu|Hu]; [by exists σ|].
  rewrite table_of_lookup.
  destruct (dict_get d u) as [old|] eqn:Hget; simpl; [|done].
  destruct (dict_get_numeric _ _ _ Hnum Hget) as [old' Hold]. rewrite Hold.
  simpl. destruct (dist_ltb (k + w) old'); [|by exists σ].
  unfold read_list. rewrite list_lookup_insert_ne by lia. rewrite Hpq.
  eexists. split; [done|].
  assert (distances_ref L < length σ)%nat by (by eapply lookup_lt_Some).
  assert (priority_queue_ref L < length σ)%nat by (by eapply lookup_lt_Some).
  split.
  - by do 2 (apply extends_by_three_insert; [lia|]).
  - exists (dict_set d u (VInt (k + w))).
    rewrite list_lookup_insert_ne by lia.
    rewrite list_lookup_insert_eq by done. split; [done|]. split.
    + by rewrite table_of_dict_set.
    + apply numeric_dict_set; [by eexists|done].
  - rewrite !list_lookup_insert_ne by lia. done.
  - apply list_lookup_insert_eq. by rewrite length_insert.
Qed.

Lemma for_items_store_sim items adj : ∀ ds vis pq σ k,
  Forall2 (λ x y, weight_of x = Some y) items adj →
  sim σ0 L ds vis pq σ →
  match for_items vis k (ds, pq) adj with
  | Ok (ds', pq') =>
      ∃ σ', for_items_store L k σ items = SOk σ' ∧ sim σ0 L ds' vis pq' σ'
  | Raise e =>
      ∃ σ' ds' pq',
        for_items_store L k σ items = SRaise e σ' ∧ sim σ0 L ds' vis pq' σ'
  end.
Proof.
  intros ds vis pq σ k Hitems. revert ds pq σ.
  induction Hitems as [|[u x] [u' w] items adj Hx _ IH]; intros ds pq σ Hsim.
  { simpl. by exists σ. }
  unfold weight_of in Hx. simpl in Hx. destruct x as [n| |]; try done.
  injection Hx as <- <-. cbn [for_items for_items_store].
  pose proof (relax_store_sim _ _ _ _ k u n Hsim) as Hrel.
  unfold mbind, result_bind.
  destruct (relax vis k (ds, pq) (u, n)) as [[ds1 pq1]|e].
  - destruct Hrel as (σ1 & -> & Hsim1). by apply IH.
  - rewrite Hrel. by exists σ, ds, pq.
Qed.

Context (g : graph_t) (Hgraph : graph_of_store σ0 (graph_ref L) = Some g).

Lemma iteration_store_sim st σ :
  graph st = g →
  sim σ0 L (distances st) (visited st) (priority_queue st) σ →
  match iteration st with
  | Continue st' =>
      ∃ σ', iteration_store L σ = SContinue σ' ∧ graph st' = g ∧
            sim σ0 L (distances st') (visited st') (priority_queue st') σ'
  | Break => iteration_store L σ = SBreak
  | Throw e =>
      ∃ σ' ds vis pq,
        iteration_store L σ = SThrow e σ' ∧ sim σ0 L ds vis pq σ'
  end.
Proof.
  intros Hg Hsim. pose proof Hsim as [Hext Hds Hvis Hpq].
  destruct HL as (Hgr & Hdr & Hqr & Hvr).
  unfold iteration, iteration_store, read_list. rewrite Hpq.
  destruct (heappop (priority_queue st)) as [[[k v] q']|]; [|done].
  pose proof (sim_pop _ _ _ q' _ Hsim) as Hsim1.
  unfold read_set. rewrite (sim_visited _ _ _ _ _ _ Hsim1).
  destruct (decide (v ∈ visited st)) as [Hv|Hv].
  { eexists. split; [done|]. by split. }
  pose proof (sim_add _ _ ({[v]} ∪ visited st) _ _ Hsim1) as Hsim2.
  destruct (graph_of_store_lookup _ _ _ Hgraph) as (d & Hd & Hlook).
  rewrite (sim_read_old _ _ _ _ _ _ Hsim2 Hd). rewrite Hg.
  specialize (Hlook v). destruct (g !! v) as [adj|].
  - destruct Hlook as (a & items & -> & Ha & Hitems).
    rewrite (sim_read_old _ _ _ _ _ _ Hsim2 Ha).
    pose proof (for_items_store_sim _ _ _ _ _ _ k Hitems Hsim2) as Hfor.
    destruct (for_items ({[v]} ∪ visited st) k (distances st, q') adj)
      as [[ds' pq']|e].
    + destruct Hfor as (σ' & -> & Hsim'). exists σ'.
      split; [done|]. by split.
    + destruct Hfor as (σ' & ds' & pq' & -> & Hsim').
      by exists σ', ds', ({[v]} ∪ visited st), pq'.
  - rewrite Hlook. by eexists _, _, _, _.
Qed.

Lemma while_store_sim : ∀ fuel st σ,
  graph st = g →
  sim σ0 L (distances st) (visited st) (priority_queue st) σ →
  match while_loop fuel st with
  | Finished st' =>
      ∃ σ', while_store fuel L σ = SFinished σ' ∧
            sim σ0 L (distances st') (visited st') (priority_queue st') σ'
  | Raised e =>
      ∃ σ' ds vis pq,
        while_store fuel L σ = SRaised e σ' ∧ sim σ0 L ds vis pq σ'
  | OutOfFuel => while_store fuel L σ = SOutOfFuel
  end.
Proof.
  induction fuel as [|fuel IH]; intros st σ Hg Hsim; [done|]. simpl.
  pose proof (iteration_store_sim _ _ Hg Hsim) as Hit.
  destruct (iteration st) as [st1| |e].
  - destruct Hit as (σ1 & -> & Hg1 & Hsim1). by apply IH.
  - rewrite Hit. by exists σ.
  - destruct Hit as (σ1 & ds & vis & pq & -> & Hsim1). by exists σ1, ds, vis, pq.
Qed.
End simulation.

Lemma store_dict_set_last σ d k v :
  store_dict_set (σ ++ [ODict d]) (length σ) k v
  = σ ++ [ODict (dict_set d k v)].
Proof.
  unfold store_dict_set, read_dict.
  rewrite lookup_app_r by done. rewrite Nat.sub_diag. simpl.
  rewrite insert_app_r_alt by done. by rewrite Nat.sub_diag.
Qed.

(** The store program does what [dijkstra_with_heap] does on the graph
    that the store holds, and leaves the objects of the store as they
    were. *)
Lemma store_call_refines σ l start g :
  graph_of_store σ l = Some g →
  match dijkstra_with_heap g start with
  | Returns t =>
      ∃ σ' d q vis,
        dijkstra_with_heap_store σ l start = SReturns (length σ) σ' ∧
        read_dict σ' (length σ) = Some d ∧ table_of d = t ∧
        extends_by_three σ σ' ∧
        σ' !! S (length σ) = Some (OList q) ∧
        σ' !! S (S (length σ)) = Some (OSet vis)
  | Raises e =>
      ∃ σ', dijkstra_with_heap_store σ l start = SRaises e σ' ∧
            extends_by_three σ σ'
  | Diverges => dijkstra_with_heap_store σ l start = SDiverges
  end.
Proof.
  intros Hg. destruct (graph_of_store_lookup _ _ _ Hg) as (d & Hd & _).
  destruct (initial_table _ _ _ _ start Hg Hd) as [Htab Hnum].
  unfold dijkstra_with_heap_store, dijkstra_with_heap, run. rewrite Hg, Hd.
  cbv zeta. rewrite store_dict_set_last.
  set (table0 := dict_set ((λ item, (item.1, VInf)) <$> d) start (VInt 0))
    in *.
  set (σ3 := ((σ ++ [ODict table0]) ++ [OList (heapify [(0, start)])])
             ++ [OSet ∅]).
  set (L := {| graph_ref := l; distances_ref := length σ;
               priority_queue_ref := length (σ ++ [ODict table0]);
               visited_ref :=
                 length ((σ ++ [ODict table0])
                         ++ [OList (heapify [(0, start)])]) |}).
  assert (call_locals σ L) as HL.
  { unfold call_locals, L. simpl. rewrite !length_app. simpl.
    split; [by eapply read_dict_lt|]. lia. }
  assert (sim σ L (distances (init_state g start))
            (visited (init_state g start))
            (priority_queue (init_state g start)) σ3) as Hsim.
  { unfold σ3. split; simpl.
    - split; [rewrite !length_app; simpl; lia|].
      intros l' Hl'. rewrite <- !(assoc_L (++)). by apply lookup_app_l.
    - exists table0. split; [|done].
      rewrite <- !(assoc_L (++)). rewrite lookup_app_r by lia.
      by rewrite Nat.sub_diag.
    - rewrite lookup_app_r by done. by rewrite Nat.sub_diag.
    - rewrite lookup_app_l by (rewrite !length_app; simpl; lia).
      rewrite lookup_app_r by done. by rewrite Nat.sub_diag. }
  pose proof (while_store_sim σ L HL g Hg (S (S (edge_count g)))
                (init_state g start) σ3 eq_refl Hsim) as Hrun.
  destruct (while_loop (S (S (edge_count g))) (init_state g start))
    as [st'|e|].
  - destruct Hrun as (σ' & -> & [Hext (d' & Hd' & Htab' & _) Hvis Hpq]).
    exists σ', d', (priority_queue st'), (visited st'). split; [done|].
    destruct HL as (_ & _ & Hqr & Hvr). rewrite Hqr in Hpq.
    rewrite Hvr in Hvis. unfold read_dict.
    change (length σ) with (distances_ref L). by rewrite Hd'.
  - destruct Hrun as (σ' & ds & vis & pq & -> & [Hext _ _ _]). by exists σ'.
  - by rewrite Hrun.
Qed.

(** * The properties of [dijkstra_with_heap] *)

(** C1: on a graph with non-negative weights whose adjacency dictionaries
    only mention keys of the graph, and a start vertex that is a key, the
    call returns a table that gives every vertex reachable from the start
    the least total weight of a directed path from the start to it. *)
Theorem dijkstra_shortest_paths g s :
  nonneg g → closed g → s ∈ dom g →
  ∃ t, dijkstra_with_heap g s = Returns t ∧
       ∀ v W, path g s v W →
              ∃ d, t !! v = Some (Fin d) ∧ shortest g s v d.
Proof.
  intros Hnn Hc Hs.
  destruct (returns_shortest g s Hnn Hc Hs) as (t & Hret & _ & Hsh & Hlow).
  exists t. split; [done|]. intros v W Hp.
  destruct (Hlow v W Hp) as (d & Hd & _). exists d. split; [done|].
  by apply Hsh.
Qed.

Lemma dijkstra_shortest_paths_witness :
  nonneg create_sample_graph ∧ closed create_sample_graph ∧
  "A" ∈ dom create_sample_graph ∧
  ∃ t, dijkstra_with_heap create_sample_graph "A" = Returns t ∧
       ∀ v W, path create_sample_graph "A" v W →
              ∃ d, t !! v = Some (Fin d) ∧
                   shortest create_sample_graph "A" v d.
Proof.
  assert (nonneg create_sample_graph) as Hnn.
  { apply (bool_decide_unpack _). vm_compute. exact I. }
  assert (closed create_sample_graph) as Hc.
  { apply (bool_decide_unpack _). vm_compute. exact I. }
  assert ("A" ∈ dom create_sample_graph) as Hs.
  { apply (bool_decide_unpack _). vm_compute. exact I. }
  split; [exact Hnn|]. split; [exact Hc|]. split; [exact Hs|].
  exact (dijkstra_shortest_paths create_sample_graph "A" Hnn Hc Hs).
Defined.

(** C2: whatever the sign of the weights, on a graph whose adjacency
    dictionaries only mention keys and a start vertex that is a key, the
    returned table maps the start vertex to 0. *)
Theorem start_distance_zero g s :
  closed g → s ∈ dom g →
  ∃ t, dijkstra_with_heap g s = Returns t ∧ t !! s = Some (Fin 0).
Proof.
  intros Hc Hs. destruct (run_closed g s Hc Hs) as (st & Hrun & _ & Hinv & _).
  exists (distances st). unfold dijkstra_with_heap. rewrite Hrun.
  split; [done|]. apply Hinv.
Qed.

Lemma start_distance_zero_witness :
  closed negative_graph ∧ "A" ∈ dom negative_graph ∧
  ∃ t, dijkstra_with_heap negative_graph "A" = Returns t ∧
       t !! "A" = Some (Fin 0).
Proof.
  assert (closed negative_graph) as Hc.
  { apply (bool_decide_unpack _). vm_compute. exact I. }
  assert ("A" ∈ dom negative_graph) as Hs.
  { apply (bool_decide_unpack _). vm_compute. exact I. }
  split; [exact Hc|]. split; [exact Hs|].
  exact (start_distance_zero negative_graph "A" Hc Hs).
Defined.

(** C3, as stated, fails: with a start vertex that is not a key the call
    does not raise an exception of class [VertexNotFound]. *)
Lemma absent_start_not_VertexNotFound :
  ("Z" ∉ dom create_sample_graph) ∧
  ¬ ∃ e, dijkstra_with_heap create_sample_graph "Z" = Raises e ∧
         exn_class e = "VertexNotFound".
Proof.
  split.
  - apply (bool_decide_unpack _). vm_compute. exact I.
  - intros (e & He & Hclass). vm_compute in He. injection He as <-.
    discriminate Hclass.
Qed.

(** C3, amended: with a start vertex that is not a key of the graph the
    call raises [KeyError] for the start vertex and returns no table. The
    start vertex has by then been written into the local distance table
    (line 18); the exception comes from the lookup [graph[current_vertex]]
    of the first iteration (line 33). *)
Theorem absent_start_raises_KeyError g s :
  s ∉ dom g →
  dijkstra_with_heap g s = Raises (KeyError s) ∧
  iteration (init_state g s) = Throw (KeyError s) ∧
  dom (distances (init_state g s)) = {[s]} ∪ dom g.
Proof.
  intros Hs. split; [|split].
  - unfold dijkstra_with_heap. by rewrite run_absent_start.
  - apply not_elem_of_dom in Hs. unfold iteration, init_state. simpl.
    rewrite decide_False by apply not_elem_of_empty. by rewrite Hs.
  - simpl. by rewrite dom_insert_L, dom_fmap_L.
Qed.

Lemma absent_start_raises_KeyError_witness :
  ("Z" ∉ dom create_sample_graph) ∧
  dijkstra_with_heap create_sample_graph "Z" = Raises (KeyError "Z").
Proof.
  assert ("Z" ∉ dom create_sample_graph) as Hs.
  { apply (bool_decide_unpack _). vm_compute. exact I. }
  split; [exact Hs|].
  exact (proj1 (absent_start_raises_KeyError create_sample_graph "Z" Hs)).
Defined.

(** C4: on a graph whose adjacency dictionaries only mention keys and a
    start vertex that is a key, the keys of the returned table are exactly
    the keys of the graph, and every vertex that no path from the start
    reaches is present with the value infinity. The weights need not be
    non-negative for this. *)
Theorem table_covers_graph g s :
  closed g → s ∈ dom g →
  ∃ t, dijkstra_with_heap g s = Returns t ∧
       dom t = dom g ∧
       ∀ v, v ∈ dom g → (∀ W, ¬ path g s v W) → t !! v = Some Inf.
Proof.
  intros Hc Hs. destruct (run_closed g s Hc Hs) as (st & Hrun & _ & Hinv & _).
  exists (distances st). unfold dijkstra_with_heap. rewrite Hrun.
  split; [done|]. split; [apply Hinv|].
  intros v Hv Hno. rewrite <- (bi_dom _ _ _ Hinv) in Hv.
  apply elem_of_dom in Hv as [[d|] Hd]; [|done].
  destruct (Hno d). by apply (bi_path _ _ _ Hinv).
Qed.

Lemma table_covers_graph_witness :
  closed disconnected_graph ∧ "A" ∈ dom disconnected_graph ∧
  ∃ t, dijkstra_with_heap disconnected_graph "A" = Returns t ∧
       dom t = dom disconnected_graph ∧
       ∀ v, v ∈ dom disconnected_graph →
            (∀ W, ¬ path disconnected_graph "A" v W) → t !! v = Some Inf.
Proof.
  assert (closed disconnected_graph) as Hc.
  { apply (bool_decide_unpack _). vm_compute. exact I. }
  assert ("A" ∈ dom disconnected_graph) as Hs.
  { apply (bool_decide_unpack _). vm_compute. exact I. }
  split; [exact Hc|]. split; [exact Hs|].
  exact (table_covers_graph disconnected_graph "A" Hc Hs).
Defined.

(** C5: in every run, a vertex that is in the visited set after an
    iteration is still there after any number of further iterations, and
    its entry of the distance table is then still the one it had before
    that iteration; and there is one iteration of the run, and only one,
    at which the vertex entered the set. The weights need not be
    non-negative for this. *)
Theorem visited_is_final g s a b c v :
  reachable g s a → step a b → v ∈ visited b → rtc step b c →
  (v ∈ visited c ∧ distances c !! v = distances a !! v) ∧
  ∃ a0 b0,
    reachable g s a0 ∧ enters v a0 b0 ∧ rtc step b0 c ∧
    ∀ a' b', reachable g s a' → enters v a' b' → a' = a0 ∧ b' = b0.
Proof.
  intros Ha Hab Hvb Hbc.
  destruct (steps_visited _ _ _ Hbc Hvb) as [Hvc Hd]. split.
  - split; [done|]. rewrite Hd. by apply (step_visited _ _ Hab).
  - assert (reachable g s c) as Hc.
    { unfold reachable. etrans; [exact Ha|]. by eapply rtc_l. }
    destruct (entered g s c v Hc Hvc) as (a0 & b0 & Ha0 & Hab0 & Hb0).
    exists a0, b0. split; [done|]. split; [done|]. split; [done|].
    intros a' b' Ha' Hab'. by eapply enters_unique.
Qed.

Lemma visited_is_final_witness :
  let a := init_state negative_graph "A" in
  let b := advance a in
  let c := advance (advance b) in
  reachable negative_graph "A" a ∧ step a b ∧ "A" ∈ visited b ∧
  rtc step b c ∧
  ("A" ∈ visited c ∧ distances c !! "A" = distances a !! "A").
Proof.
  intros a b c.
  assert (reachable negative_graph "A" a) as Ha by apply rtc_refl.
  assert (step a b) as Hab by (vm_compute; reflexivity).
  assert ("A" ∈ visited b) as Hvb.
  { apply (bool_decide_unpack _). vm_compute. exact I. }
  assert (rtc step b c) as Hbc.
  { apply (rtc_l _ _ (advance b)); [vm_compute; reflexivity|].
    apply rtc_once. vm_compute. reflexivity. }
  split; [exact Ha|]. split; [exact Hab|]. split; [exact Hvb|].
  split; [exact Hbc|].
  exact (proj1 (visited_is_final negative_graph "A" a b c "A"
                  Ha Hab Hvb Hbc)).
Defined.

(** C6: on a graph whose adjacency dictionaries only mention keys and a
    start vertex that is a key, the loop stops, with an empty queue, within
    one iteration per queue entry; every iteration takes exactly one entry
    out of the queue; a vertex enters the visited set at most once; and the
    calls to [heappush] number at most the edges of the graph, so that with
    the seed entry at most that many plus one entries are ever queued. *)
Theorem loop_terminates g s :
  closed g → s ∈ dom g →
  ∃ st,
    (∀ fuel, (S (edge_count g) < fuel)%nat →
             while_loop fuel (init_state g s) = Finished st) ∧
    pq_items (priority_queue st) = [] ∧
    pq_pops (priority_queue st) = S (pq_pushes (priority_queue st)) ∧
    (pq_pushes (priority_queue st) <= edge_count g)%nat ∧
    (∀ a b, reachable g s a → step a b →
       ∃ e q0 new,
         heappop (priority_queue a) = Some (e, q0) ∧
         pq_items (priority_queue a) ≡ₚ e :: pq_items q0 ∧
         pq_items (priority_queue b) = new ++ pq_items q0 ∧
         pq_pops (priority_queue b) = S (pq_pops (priority_queue a)) ∧
         pq_pushes (priority_queue b)
           = (pq_pushes (priority_queue a) + length new)%nat) ∧
    (∀ v a b a' b',
       reachable g s a → enters v a b →
       reachable g s a' → enters v a' b' → a' = a ∧ b' = b).
Proof.
  intros Hc Hs. destruct (run_closed g s Hc Hs) as (st & Hrun & _ & Hinv & Hq).
  exists st. split; [|split; [done|split; [|split; [|split]]]].
  - intros fuel Hfuel. eapply while_loop_more_fuel; [|exact Hrun]. lia.
  - pose proof (bi_count _ _ _ Hinv) as Hcount. rewrite Hq in Hcount.
    simpl in Hcount. lia.
  - pose proof (bi_pushes _ _ _ Hinv). lia.
  - intros a b _ Hab. by apply step_queue.
  - intros v a b a' b'. apply enters_unique.
Qed.

Lemma loop_terminates_witness :
  closed create_sample_graph ∧ "E" ∈ dom create_sample_graph ∧
  ∃ st,
    run create_sample_graph "E" = Finished st ∧
    pq_items (priority_queue st) = [] ∧
    (pq_pushes (priority_queue st) <= edge_count create_sample_graph)%nat.
Proof.
  assert (closed create_sample_graph) as Hc.
  { apply (bool_decide_unpack _). vm_compute. exact I. }
  assert ("E" ∈ dom create_sample_graph) as Hs.
  { apply (bool_decide_unpack _). vm_compute. exact I. }
  split; [exact Hc|]. split; [exact Hs|].
  destruct (loop_terminates create_sample_graph "E" Hc Hs)
    as (st & Hfuel & Hq & _ & Hpush & _).
  exists st. split; [|split; [exact Hq|exact Hpush]].
  apply Hfuel. lia.
Defined.

(** C7: on a graph with non-negative weights whose adjacency dictionaries
    only mention keys, with a start vertex that is a key, raising the
    weight of one edge (which then has the new weight) gives a table with
    the same keys in which no vertex has a smaller distance than before. *)
Theorem weight_increase_monotone g s a b w w' :
  nonneg g → closed g → s ∈ dom g → edge g a b w → w <= w' →
  edge (raise_edge g a b w w') a b w' ∧
  ∃ t t',
    dijkstra_with_heap g s = Returns t ∧
    dijkstra_with_heap (raise_edge g a b w w') s = Returns t' ∧
    dom t' = dom t ∧
    ∀ v x x', t !! v = Some x → t' !! v = Some x' → dist_le x x'.
Proof.
  intros Hnn Hc Hs He Hle. split; [by apply raise_edge_new_weight|].
  destruct (returns_shortest g s Hnn Hc Hs) as (t & Hret & Hdom & _ & Hlow).
  destruct (returns_shortest (raise_edge g a b w w') s)
    as (t' & Hret' & Hdom' & Hsh' & _).
  { by apply raise_edge_nonneg. }
  { by apply raise_edge_closed. }
  { by rewrite raise_edge_dom. }
  exists t, t'. split; [done|]. split; [done|]. split.
  { by rewrite Hdom, Hdom', raise_edge_dom. }
  intros v x x' Hx Hx'. destruct x' as [d'|]; [|by destruct x].
  destruct (Hsh' _ _ Hx') as [Hp' _].
  destruct (raise_edge_path _ _ _ _ _ _ Hle _ _ Hp') as (W & Hp & HW).
  destruct (Hlow _ _ Hp) as (d & Hd & HdW).
  rewrite Hx in Hd. injection Hd as ->. simpl. lia.
Qed.

Lemma weight_increase_monotone_witness :
  nonneg create_sample_graph ∧ closed create_sample_graph ∧
  "A" ∈ dom create_sample_graph ∧ edge create_sample_graph "A" "B" 5 ∧
  5 <= 9 ∧
  edge (raise_edge create_sample_graph "A" "B" 5 9) "A" "B" 9 ∧
  ∃ t t',
    dijkstra_with_heap create_sample_graph "A" = Returns t ∧
    dijkstra_with_heap (raise_edge create_sample_graph "A" "B" 5 9) "A"
      = Returns t' ∧
    dom t' = dom t ∧
    ∀ v x x', t !! v = Some x → t' !! v = Some x' → dist_le x x'.
Proof.
  assert (nonneg create_sample_graph) as Hnn.
  { apply (bool_decide_unpack _). vm_compute. exact I. }
  assert (closed create_sample_graph) as Hc.
  { apply (bool_decide_unpack _). vm_compute. exact I. }
  assert ("A" ∈ dom create_sample_graph) as Hs.
  { apply (bool_decide_unpack _). vm_compute. exact I. }
  assert (edge create_sample_graph "A" "B" 5) as He.
  { eexists. split; [vm_compute; reflexivity|]. apply elem_of_cons. by left. }
  assert (5 <= 9) as Hle by lia.
  split; [exact Hnn|]. split; [exact Hc|]. split; [exact Hs|].
  split; [exact He|]. split; [exact Hle|].
  exact (weight_increase_monotone create_sample_graph "A" "A" "B" 5 9
           Hnn Hc Hs He Hle).
Defined.

(** C8: on a graph with a negative edge weight (adjacency dictionaries
    only mention keys, start vertex a key) the call raises nothing and
    does not run forever: it returns a table. *)
Theorem negative_weights_not_rejected g s :
  has_negative_edge g → closed g → s ∈ dom g →
  ∃ t, dijkstra_with_heap g s = Returns t.
Proof.
  intros _ Hc Hs. destruct (run_closed g s Hc Hs) as (st & Hrun & _).
  exists (distances st). unfold dijkstra_with_heap. by rewrite Hrun.
Qed.

Lemma negative_weights_not_rejected_witness :
  has_negative_edge negative_graph ∧ closed negative_graph ∧
  "A" ∈ dom negative_graph ∧
  ∃ t, dijkstra_with_heap negative_graph "A" = Returns t.
Proof.
  assert (has_negative_edge negative_graph) as Hneg.
  { exists "C", "B", (-5). split; [|lia].
    eexists. split; [vm_compute; reflexivity|]. apply elem_of_cons. by left. }
  assert (closed negative_graph) as Hc.
  { apply (bool_decide_unpack _). vm_compute. exact I. }
  assert ("A" ∈ dom negative_graph) as Hs.
  { apply (bool_decide_unpack _). vm_compute. exact I. }
  split; [exact Hneg|]. split; [exact Hc|]. split; [exact Hs|].
  exact (negative_weights_not_rejected negative_graph "A" Hneg Hc Hs).
Defined.

Lemma store_call_typed σ l start r σ' :
  dijkstra_with_heap_store σ l start = SReturns r σ' →
  ∃ g, graph_of_store σ l = Some g.
Proof.
  unfold dijkstra_with_heap_store.
  destruct (graph_of_store σ l) as [g|]; [by exists g|done].
Qed.

(** C9: the call is given a reference to the graph in a store of objects.
    When it returns, every object that the store held before the call,
    the graph dictionary and each adjacency dictionary among them, is at
    its reference and unchanged, so the store holds the same graph, with
    the same keys, adjacency items and weights. The store has three
    objects more than before, those made at lines 17, 20 and 23: the
    table, whose reference is what the call returns and which holds what
    [dijkstra_with_heap] computes on that graph, the list of the queue
    and the visited set. *)
Theorem graph_not_mutated σ graph start r σ' :
  dijkstra_with_heap_store σ graph start = SReturns r σ' →
  (∀ l, (l < length σ)%nat → σ' !! l = σ !! l) ∧
  graph_of_store σ' graph = graph_of_store σ graph ∧
  length σ' = (length σ + 3)%nat ∧
  r = length σ ∧
  (∃ g t d, graph_of_store σ graph = Some g ∧
            dijkstra_with_heap g start = Returns t ∧
            read_dict σ' r = Some d ∧ table_of d = t) ∧
  (∃ q vis, σ' !! S r = Some (OList q) ∧ σ' !! S (S r) = Some (OSet vis)).
Proof.
  intros Hcall. destruct (store_call_typed _ _ _ _ _ Hcall) as [g Hg].
  pose proof (store_call_refines σ graph start g Hg) as Href.
  destruct (dijkstra_with_heap g start) as [t|e|] eqn:Hpure.
  - destruct Href as (σ'' & d & q & vis & Hcall' & Hd & Ht & Hext & Hq & Hv).
    rewrite Hcall in Hcall'. injection Hcall' as -> <-.
    destruct Hext as [Hlen Hold].
    split; [done|]. split.
    { rewrite Hg. by apply (graph_of_store_agree σ). }
    split; [done|]. split; [done|]. split.
    + by exists g, t, d.
    + by exists q, vis.
  - destruct Href as (σ'' & Hcall' & _). congruence.
  - congruence.
Qed.

Lemma graph_not_mutated_witness :
  ∃ r σ',
    dijkstra_with_heap_store sample_store 0 "A" = SReturns r σ' ∧
    (∀ l, (l < length sample_store)%nat → σ' !! l = sample_store !! l) ∧
    graph_of_store σ' 0 = graph_of_store sample_store 0 ∧
    length σ' = (length sample_store + 3)%nat.
Proof.
  assert (∃ r σ', dijkstra_with_heap_store sample_store 0 "A"
                  = SReturns r σ') as (r & σ' & Hcall).
  { eexists _, _. vm_compute. reflexivity. }
  exists r, σ'. split; [exact Hcall|].
  destruct (graph_not_mutated sample_store 0 "A" r σ' Hcall)
    as (Hold & Hgraph & Hlen & _).
  split; [exact Hold|]. split; [exact Hgraph|exact Hlen].
Defined.

(** C10: when a vertex reachable from the start has an edge to a neighbor
    that is not a key of the graph, the call returns no table: it raises
    [KeyError] for a neighbor that is not a key and is the end of an edge
    from a reachable vertex, at the lookup [distances[neighbor]]. No state
    of the run has a table entry for a vertex that is not a key. *)
Theorem missing_neighbor_raises g s v u w W :
  path g s v W → edge g v u w → u ∉ dom g →
  (∃ v' u' w' W',
     dijkstra_with_heap g s = Raises (KeyError u') ∧
     (u' ∉ dom g) ∧ path g s v' W' ∧ edge g v' u' w') ∧
  (∀ st, reachable g s st → dom (distances st) = dom g) ∧
  (∀ vis k acc w0,
     u ∉ vis → dom acc.1 = dom g →
     relax vis k acc (u, w0) = Raise (KeyError u)).
Proof.
  intros Hp He Hu. pose proof (path_from_key _ _ _ _ _ _ Hp He) as Hs.
  split; [|split].
  - destruct (run_spec g s Hs)
      as [(st & Hrun & _ & Hinv & Hq)|(st & e & Hrun & _ & Hinv & Hit)].
    + destruct (finished_reached _ _ _ Hinv Hq _ _ Hp) as [Hv _].
      destruct (bi_edges _ _ _ Hinv _ _ _ Hv He) as (d & Hd).
      apply elem_of_dom_2 in Hd. rewrite (bi_dom _ _ _ Hinv) in Hd. done.
    + destruct (iteration_Throw _ _ _ _ Hinv Hit)
        as (v' & u' & w' & W' & Hp' & He' & Hu' & _ & ->).
      exists v', u', w', W'. unfold dijkstra_with_heap. by rewrite Hrun.
  - intros st Hst. by apply (bi_dom g s), reachable_inv.
  - intros vis k acc w0 Hvis Hdom. unfold relax.
    rewrite decide_False by done.
    rewrite <- Hdom in Hu. apply not_elem_of_dom in Hu. by rewrite Hu.
Qed.

Lemma missing_neighbor_raises_witness :
  path dangling_graph "A" "A" 0 ∧ edge dangling_graph "A" "Z" 1 ∧
  ("Z" ∉ dom dangling_graph) ∧
  ∃ v' u' w' W',
    dijkstra_with_heap dangling_graph "A" = Raises (KeyError u') ∧
    (u' ∉ dom dangling_graph) ∧ path dangling_graph "A" v' W' ∧
    edge dangling_graph v' u' w'.
Proof.
  assert (path dangling_graph "A" "A" 0) as Hp by constructor.
  assert (edge dangling_graph "A" "Z" 1) as He.
  { eexists. split; [vm_compute; reflexivity|]. apply elem_of_cons. by left. }
  assert ("Z" ∉ dom dangling_graph) as Hu.
  { apply (bool_decide_unpack _). vm_compute. exact I. }
  split; [exact Hp|]. split; [exact He|]. split; [exact Hu|].
  exact (proj1 (missing_neighbor_raises dangling_graph "A" "A" "Z" 1 0
                  Hp He Hu)).
Defined.

(** ** The scenarios of the specification *)

Example sample_store_graph :
  graph_of_store sample_store 0 = Some create_sample_graph.
Proof. vm_compute. reflexivity. Qed.

(** A write to an adjacency dictionary of the store changes the graph
    that the store holds. *)
Example store_write_changes_graph :
  graph_of_store (store_dict_set sample_store 1 "B" (VInt 7)) 0 =
  Some (<["A" := [("B", 7); ("C", 10)]]> create_sample_graph).
Proof. vm_compute. reflexivity. Qed.

Example sample_store_call :
  ∃ σ' ds, dijkstra_with_heap_store sample_store 0 "A" = SReturns 6 σ' ∧
        read_dict σ' 6 = Some ds ∧
        Returns (table_of ds) = dijkstra_with_heap create_sample_graph "A".
Proof. eexists _, _. split; [vm_compute; reflexivity|].
  split; vm_compute; reflexivity. Qed.

Example scenario_1 :
  dijkstra_with_heap create_sample_graph "A" =
  Returns (list_to_map [("A", Fin 0); ("B", Fin 5); ("C", Fin 10);
                        ("D", Fin 8); ("E", Fin 12)]%string).
Proof. vm_compute. reflexivity. Qed.

Example scenario_2 :
  dijkstra_with_heap create_sample_graph "E" =
  Returns (list_to_map [("E", Fin 0); ("D", Fin 4); ("B", Fin 7);
                        ("C", Fin 6); ("A", Fin 12)]%string).
Proof. vm_compute. reflexivity. Qed.

Example scenario_3 :
  dijkstra_with_heap disconnected_graph "A" =
  Returns (list_to_map [("A", Fin 0); ("B", Fin 1); ("C", Inf)]%string).
Proof. vm_compute. reflexivity. Qed.

Example scenario_4 :
  dijkstra_with_heap (list_to_map [("A"%string, [])]) "A" =
  Returns (list_to_map [("A"%string, Fin 0)]).
Proof. vm_compute. reflexivity. Qed.

Example scenario_5 :
  dijkstra_with_heap create_sample_graph "Z" = Raises (KeyError "Z").
Proof. vm_compute. reflexivity. Qed.

(** Raising the weight of the edge from [A] to [B] from 5 to 9. *)
Example raised_sample_graph :
  dijkstra_with_heap (raise_edge create_sample_graph "A" "B" 5 9) "A" =
  Returns (list_to_map [("A", Fin 0); ("B", Fin 9); ("C", Fin 10);
                        ("D", Fin 12); ("E", Fin 16)]%string).
Proof. vm_compute. reflexivity. Qed.

(** With a negative edge the table need not hold shortest distances: [B]
    is finalized at 1 although the path through [C] weighs -3. *)
Example negative_graph_table :
  dijkstra_with_heap negative_graph "A" =
  Returns (list_to_map [("A", Fin 0); ("B", Fin 1); ("C", Fin 2)]%string) ∧
  path negative_graph "A" "B" (-3).
Proof.
  split; [vm_compute; reflexivity|].
  apply (path_step _ _ "C" "B" (0 + 2) (-5)).
  - apply (path_step _ _ "A" "C" 0 2); [constructor|].
    eexists. split; [vm_compute; reflexivity|]. set_solver.
  - eexists. split; [vm_compute; reflexivity|]. set_solver.
Qed.

Example dangling_graph_raises :
  dijkstra_with_heap dangling_graph "A" = Raises (KeyError "Z").
Proof. vm_compute. reflexivity. Qed.

(** * Further properties *)

(** ** Paths *)

Lemma path_app g s u v A B :
  path g s u A → path g u v B → path g s v (A + B).
Proof.
  intros Ha Hb. induction Hb as [|x y B w _ IH He].
  - by rewrite Z.add_0_r.
  - rewrite Z.add_assoc. by eapply path_step.
Qed.

Lemma path_edge g v u w : edge g v u w → path g v u w.
Proof.
  intros He. change w with (0 + w). eapply path_step; [constructor|done].
Qed.

Lemma path_nonneg g s v W : nonneg g → path g s v W → 0 <= W.
Proof.
  intros Hnn. induction 1 as [|x y W w _ IH He]; [lia|].
  pose proof (nonneg_edge _ _ _ _ Hnn He). lia.
Qed.

(** ** Edges of related graphs *)

Lemma lookup_default_item (g : graph_t) v item :
  item ∈ default [] (g !! v) ↔ ∃ adj, g !! v = Some adj ∧ item ∈ adj.
Proof.
  destruct (g !! v) as [adj|]; simpl.
  - split; [by exists adj|]. by intros (adj' & [= <-] & ?).
  - split; [by intros ?%elem_of_nil|]. by intros (adj' & [=] & ?).
Qed.

Lemma edges_within_edge g g' v u w :
  edges_within g g' → edge g v u w → edge g' v u w.
Proof.
  intros Hin (adj & Hv & Hu). specialize (Hin _ _ Hv). simpl in Hin.
  rewrite Forall_forall in Hin. by apply lookup_default_item, Hin.
Qed.

Lemma edges_within_path g g' s v W :
  edges_within g g' → path g s v W → path g' s v W.
Proof.
  intros Hin. induction 1 as [|x y W w _ IH He]; [constructor|].
  eapply path_step; [done|]. by eapply edges_within_edge.
Qed.

Lemma undercut_by_edge g g' v u w :
  undercut_by g g' → edge g v u w → ∃ w', edge g' v u w' ∧ w' <= w.
Proof.
  intros Hu (adj & Hv & Hin). specialize (Hu _ _ Hv). simpl in Hu.
  rewrite Forall_forall in Hu. specialize (Hu _ Hin).
  apply Exists_exists in Hu as ([u' w'] & Hin' & Heq & Hle). simpl in *.
  subst u'. exists w'. split; [|done]. by apply lookup_default_item.
Qed.

Lemma undercut_by_path g g' s v W :
  undercut_by g g' → path g s v W → ∃ W', path g' s v W' ∧ W' <= W.
Proof.
  intros Hu. induction 1 as [|x y W w _ (W' & Hp' & Hle) He].
  - exists 0. split; [constructor|lia].
  - destruct (undercut_by_edge _ _ _ _ _ Hu He) as (w' & He' & Hw).
    exists (W' + w'). split; [by eapply path_step|lia].
Qed.

Lemma symmetric_edge g v u w : symmetric g → edge g v u w → edge g u v w.
Proof.
  intros Hs (adj & Hv & Hin). specialize (Hs _ _ Hv). simpl in Hs.
  rewrite Forall_forall in Hs. by apply lookup_default_item, (Hs _ Hin).
Qed.

Lemma symmetric_path g a b W : symmetric g → path g a b W → path g b a W.
Proof.
  intros Hs. induction 1 as [|x y W w _ IH He]; [constructor|].
  rewrite Z.add_comm. eapply path_app; [|exact IH].
  by apply path_edge, symmetric_edge.
Qed.

(** ** What a returned table comes from *)

Lemma returns_inv g s t :
  dijkstra_with_heap g s = Returns t →
  s ∈ dom g ∧
  ∃ st, run g s = Finished st ∧ distances st = t ∧ reachable g s st ∧
        basic_inv g s st ∧ pq_items (priority_queue st) = [].
Proof.
  unfold dijkstra_with_heap. intros Hret.
  destruct (decide (s ∈ dom g)) as [Hs|Hs].
  - split; [done|].
    destruct (run_spec g s Hs)
      as [(st & Hrun & Hr & Hinv & Hq)|(st & e & Hrun & _)];
      rewrite Hrun in Hret; [|done].
    injection Hret as <-. by exists st.
  - by rewrite (run_absent_start g s Hs) in Hret.
Qed.

Lemma returns_path g s t v d :
  dijkstra_with_heap g s = Returns t → t !! v = Some (Fin d) → path g s v d.
Proof.
  intros (_ & st & _ & <- & _ & Hinv & _)%returns_inv Hd.
  by apply (bi_path _ _ _ Hinv).
Qed.

Lemma reachable_dijkstra_inv g s st :
  nonneg g → s ∈ dom g → reachable g s st → dijkstra_inv g st.
Proof.
  intros Hnn Hs Hr.
  cut (basic_inv g s st ∧ dijkstra_inv g st); [by intros [_ ?]|].
  revert st Hr. unfold reachable.
  apply (rtc_ind_r (λ st, basic_inv g s st ∧ dijkstra_inv g st)).
  - split; [by apply basic_inv_init|apply dijkstra_inv_init].
  - intros a b _ Hab [Hinv Hdi]. split.
    + by eapply basic_inv_step.
    + by eapply dijkstra_inv_step.
Qed.

(** With an empty queue every vertex with a finite entry is visited. *)
Lemma finished_visited g s st v d :
  basic_inv g s st → pq_items (priority_queue st) = [] →
  distances st !! v = Some (Fin d) → v ∈ visited st.
Proof.
  intros Hinv Hq Hd. destruct (decide (v ∈ visited st)) as [|Hv]; [done|].
  pose proof (bi_cover _ _ _ Hinv _ _ Hv Hd) as Hin.
  rewrite Hq in Hin. by apply elem_of_nil in Hin.
Qed.

(** What a returned table holds when the weights are non-negative,
    whether or not the whole graph is closed. *)
Lemma returns_nonneg g s t :
  nonneg g → dijkstra_with_heap g s = Returns t →
  (∀ v d, t !! v = Some (Fin d) → shortest g s v d) ∧
  (∀ v W, path g s v W → ∃ d, t !! v = Some (Fin d) ∧ d <= W) ∧
  (∀ v u w dv, edge g v u w → t !! v = Some (Fin dv) →
               ∃ du, t !! u = Some (Fin du) ∧ du <= dv + w).
Proof.
  intros Hnn Hret.
  destruct (returns_inv _ _ _ Hret) as (Hs & st & Hrun & <- & _ & Hinv & Hq).
  pose proof (run_nonneg g s st Hnn Hs Hrun) as Hdi.
  split; [|split].
  - intros v d Hd. split; [by apply (bi_path _ _ _ Hinv)|].
    intros W Hp.
    destruct (finished_lower _ _ _ Hinv Hdi Hq _ _ Hp) as (d' & Hd' & Hle).
    rewrite Hd in Hd'. by injection Hd' as <-.
  - by apply finished_lower.
  - intros v u w dv He Hdv.
    pose proof (finished_visited _ _ _ _ _ Hinv Hq Hdv) as Hv.
    destruct (bi_edges _ _ _ Hinv _ _ _ Hv He) as (du & Hdu).
    exists du. split; [done|].
    by apply (di_relaxed _ _ Hdi _ _ _ _ _ Hv He Hdv Hdu).
Qed.

(** ** The frontier *)

(** A path from the start either ends at a visited vertex whose entry is
    at most the weight of the path, or has gone through a vertex not yet
    visited whose entry is at most that weight. *)
Lemma frontier g s st y W :
  nonneg g → basic_inv g s st → dijkstra_inv g st → path g s y W →
  (y ∈ visited st ∧ ∃ dy, distances st !! y = Some (Fin dy) ∧ dy <= W) ∨
  (∃ z dz, (z ∉ visited st) ∧ distances st !! z = Some (Fin dz) ∧ dz <= W).
Proof.
  intros Hnn Hinv Hdi. induction 1 as [|x y W w _ IH He].
  - destruct (bi_start _ _ _ Hinv) as [H0 _].
    destruct (decide (s ∈ visited st)) as [Hs|Hs].
    + left. split; [done|]. exists 0. split; [done|lia].
    + right. exists s, 0. split; [done|]. split; [done|lia].
  - pose proof (nonneg_edge _ _ _ _ Hnn He) as Hw.
    destruct IH as [(Hx & dx & Hdx & Hle)|(z & dz & Hz & Hdz & Hle)].
    + destruct (bi_edges _ _ _ Hinv _ _ _ Hx He) as (dy & Hdy).
      pose proof (di_relaxed _ _ Hdi _ _ _ _ _ Hx He Hdx Hdy) as Hrel.
      destruct (decide (y ∈ visited st)) as [Hy|Hy].
      * left. split; [done|]. exists dy. split; [done|lia].
      * right. exists y, dy. split; [done|]. split; [done|lia].
    + right. exists z, dz. split; [done|]. split; [done|lia].
Qed.

(** The vertex that an iteration adds to [visited] is the popped one. *)
Lemma enters_popped v a b :
  enters v a b →
  ∃ k q0, heappop (priority_queue a) = Some ((k, v), q0) ∧
          visited b = {[v]} ∪ visited a.
Proof.
  intros (Hab & Hva & Hvb).
  destruct (iteration_Continue _ _ Hab) as (k & x & q0 & Hpop & Hcase).
  destruct Hcase as [[Hx ->]|(Hx & adj & ds & pq' & Hadj & Hfor & ->)];
    simpl in *; [done|].
  apply elem_of_union in Hvb as [->%elem_of_singleton|?]; [|done].
  by exists k, q0.
Qed.

Lemma enters_shortest g s v a b :
  nonneg g → basic_inv g s a → dijkstra_inv g a → enters v a b →
  ∃ k, distances a !! v = Some (Fin k) ∧ shortest g s v k ∧
       (k, v) ∈ pq_items (priority_queue a).
Proof.
  intros Hnn Hinv Hdi Hent.
  destruct (enters_popped _ _ _ Hent) as (k & q0 & Hpop & _).
  destruct Hent as (_ & Hva & _).
  pose proof (popped_dist _ _ _ _ _ _ Hinv Hpop Hva) as Hk.
  exists k. split; [done|]. split; [|by eapply popped_in_queue].
  split; [by apply (bi_path _ _ _ Hinv)|].
  intros W Hp.
  destruct (frontier _ _ _ _ _ Hnn Hinv Hdi Hp)
    as [[Hv _]|(z & dz & Hz & Hdz & Hle)]; [done|].
  pose proof (bi_cover _ _ _ Hinv _ _ Hz Hdz) as Hin.
  pose proof (popped_least _ _ _ _ _ _ Hpop Hin). lia.
Qed.

(** ** Entries only decrease *)

Lemma dist_le_refl x : dist_le x x.
Proof. destruct x; simpl; [lia|done]. Qed.

Lemma dist_le_trans x y z : dist_le x y → dist_le y z → dist_le x z.
Proof. destruct x, y, z; simpl; try done; lia. Qed.

Lemma relax_decreases vis k acc item acc' v x :
  relax vis k acc item = Ok acc' → acc.1 !! v = Some x →
  ∃ y, acc'.1 !! v = Some y ∧ dist_le y x.
Proof.
  destruct item as [u w].
  intros [[-> _]|(_ & old & Hold & Hlt & ->)]%relax_cases Hx.
  - exists x. split; [done|apply dist_le_refl].
  - simpl. destruct (decide (u = v)) as [->|Hne].
    + exists (Fin (k + w)). rewrite lookup_insert_eq. split; [done|].
      rewrite Hx in Hold. injection Hold as <-.
      destruct x as [d|]; [|done]. simpl in *. apply Z.ltb_lt in Hlt. lia.
    + exists x. rewrite lookup_insert_ne by done.
      split; [done|apply dist_le_refl].
Qed.

Lemma for_items_decreases vis k items acc res v x :
  for_items vis k acc items = Ok res → acc.1 !! v = Some x →
  ∃ y, res.1 !! v = Some y ∧ dist_le y x.
Proof.
  intros Hfor Hx.
  eapply (for_items_ind (λ _ a, ∃ y, a.1 !! v = Some y ∧ dist_le y x));
    [| |exact Hfor].
  - exists x. split; [done|apply dist_le_refl].
  - intros seen it a a' _ (y & Hy & Hle) Hrel.
    destruct (relax_decreases _ _ _ _ _ _ _ Hrel Hy) as (y' & Hy' & Hle').
    exists y'. split; [done|]. by eapply dist_le_trans.
Qed.

Lemma step_decreases a b v x :
  step a b → distances a !! v = Some x →
  ∃ y, distances b !! v = Some y ∧ dist_le y x.
Proof.
  intros (k & u & q0 & Hpop & Hcase)%iteration_Continue Hx.
  destruct Hcase as [[Hu ->]|(Hu & adj & ds & pq' & Hadj & Hfor & ->)];
    simpl.
  - exists x. split; [done|apply dist_le_refl].
  - by apply (for_items_decreases _ _ _ _ _ _ _ Hfor Hx).
Qed.

(** ** When the call returns *)

Lemma returns_reachable_part_closed g s t :
  dijkstra_with_heap g s = Returns t →
  s ∈ dom g ∧ ∀ v u w W, path g s v W → edge g v u w → u ∈ dom g.
Proof.
  intros Hret.
  destruct (returns_inv _ _ _ Hret) as (Hs & st & _ & _ & _ & Hinv & Hq).
  split; [done|]. intros v u w W Hp He.
  destruct (finished_reached _ _ _ Hinv Hq _ _ Hp) as [Hv _].
  destruct (bi_edges _ _ _ Hinv _ _ _ Hv He) as (d & Hd).
  apply elem_of_dom_2 in Hd. by rewrite (bi_dom _ _ _ Hinv) in Hd.
Qed.

Lemma reachable_part_closed_returns g s :
  s ∈ dom g → (∀ v u w W, path g s v W → edge g v u w → u ∈ dom g) →
  ∃ t, dijkstra_with_heap g s = Returns t.
Proof.
  intros Hs Hclosed. unfold dijkstra_with_heap.
  destruct (run_spec g s Hs)
    as [(st & -> & _)|(st & e & _ & _ & Hinv & Hit)]; [by eexists|].
  destruct (iteration_Throw _ _ _ _ Hinv Hit)
    as (v & u & w & W & Hp & He & Hu & _).
  destruct Hu. by eapply Hclosed.
Qed.

(** X1: for every graph and every start vertex the call ends: it returns
    a table, or it raises [KeyError] for a vertex that is not a key of the
    graph, which is the start itself or the neighbor at the end of an edge
    out of a vertex reachable from the start. It raises nothing else. *)
Theorem call_returns_or_raises_KeyError g s :
  (∃ t, dijkstra_with_heap g s = Returns t) ∨
  (∃ k, dijkstra_with_heap g s = Raises (KeyError k) ∧ (k ∉ dom g) ∧
        (k = s ∨ ∃ v w W, path g s v W ∧ edge g v k w)).
Proof.
  unfold dijkstra_with_heap. destruct (decide (s ∈ dom g)) as [Hs|Hs].
  - destruct (run_spec g s Hs)
      as [(st & -> & _)|(st & e & -> & _ & Hinv & Hit)]; [left; by eexists|].
    destruct (iteration_Throw _ _ _ _ Hinv Hit)
      as (v & u & w & W & Hp & He & Hu & _ & ->).
    right. exists u. split; [done|]. split; [done|]. right. by exists v, w, W.
  - right. exists s. rewrite run_absent_start by done.
    split; [done|]. split; [done|]. by left.
Qed.

(** X2: the call returns a table exactly when the start vertex is a key
    and every edge out of a vertex reachable from the start leads to a
    key; edges to missing vertices elsewhere in the graph do no harm. *)
Theorem returns_iff_reachable_part_closed g s :
  (∃ t, dijkstra_with_heap g s = Returns t) ↔
  s ∈ dom g ∧ ∀ v u w W, path g s v W → edge g v u w → u ∈ dom g.
Proof.
  split.
  - intros [t Hret]. by eapply returns_reachable_part_closed.
  - intros [Hs Hclosed]. by apply reachable_part_closed_returns.
Qed.

(** X3: whatever the sign of the weights, a returned table has the keys
    of the graph, maps the start to 0, holds a number exactly at the
    vertices reachable from the start, each number being the weight of
    some path from the start, and infinity at the other keys. *)
Theorem returned_table_any_weights g s t :
  dijkstra_with_heap g s = Returns t →
  dom t = dom g ∧ t !! s = Some (Fin 0) ∧
  (∀ v d, t !! v = Some (Fin d) → path g s v d) ∧
  (∀ v W, path g s v W → ∃ d, t !! v = Some (Fin d)) ∧
  (∀ v, v ∈ dom g → (∀ W, ¬ path g s v W) → t !! v = Some Inf).
Proof.
  intros (Hs & st & _ & <- & _ & Hinv & Hq)%returns_inv.
  split; [apply Hinv|]. split; [apply Hinv|]. split; [apply Hinv|]. split.
  - intros v W Hp. by destruct (finished_reached _ _ _ Hinv Hq _ _ Hp).
  - intros v Hv Hno. rewrite <- (bi_dom _ _ _ Hinv) in Hv.
    apply elem_of_dom in Hv as [[d|] Hd]; [|done].
    destruct (Hno d). by apply (bi_path _ _ _ Hinv).
Qed.

Lemma returned_table_any_weights_witness :
  dijkstra_with_heap negative_graph "A" =
    Returns (list_to_map [("A", Fin 0); ("B", Fin 1); ("C", Fin 2)]%string) ∧
  ∀ v d,
    (list_to_map [("A", Fin 0); ("B", Fin 1); ("C", Fin 2)]%string : table)
      !! v = Some (Fin d) →
    path negative_graph "A" v d.
Proof.
  assert (dijkstra_with_heap negative_graph "A" =
    Returns (list_to_map [("A", Fin 0); ("B", Fin 1); ("C", Fin 2)]%string))
    as Hret by (vm_compute; reflexivity).
  split; [exact Hret|].
  exact (proj1 (proj2 (proj2 (returned_table_any_weights _ _ _ Hret)))).
Defined.

(** X4: an entry of the distance table never increases from one iteration
    to a later one: a number is only replaced by a smaller number, and
    infinity only by a number. *)
Theorem table_entries_never_increase a b v x :
  rtc step a b → distances a !! v = Some x →
  ∃ y, distances b !! v = Some y ∧ dist_le y x.
Proof.
  intros Hab. revert x. induction Hab as [a|a b c Hab _ IH]; intros x0 Hx.
  - exists x0. split; [done|apply dist_le_refl].
  - destruct (step_decreases _ _ _ _ Hab Hx) as (y & Hy & Hle).
    destruct (IH _ Hy) as (z & Hz & Hle').
    exists z. split; [done|]. by eapply dist_le_trans.
Qed.

Lemma table_entries_never_increase_witness :
  let a := init_state create_sample_graph "A" in
  let b := advance (advance a) in
  rtc step a b ∧ distances a !! "D" = Some Inf ∧
  ∃ y, distances b !! "D" = Some y ∧ dist_le y Inf.
Proof.
  intros a b.
  assert (rtc step a b) as Hab.
  { apply (rtc_l _ _ (advance a)); [vm_compute; reflexivity|].
    apply rtc_once. vm_compute. reflexivity. }
  assert (distances a !! "D" = Some Inf) as Hx by (vm_compute; reflexivity).
  split; [exact Hab|]. split; [exact Hx|].
  exact (table_entries_never_increase a b "D" Inf Hab Hx).
Defined.

(** X5: with non-negative weights vertices enter the visited set in
    order of distance: when a vertex enters, its entry is at least the
    entry of every vertex visited before it. *)
Theorem finalized_in_distance_order g s a b u v :
  nonneg g → s ∈ dom g → reachable g s a →
  u ∈ visited a → enters v a b →
  ∃ du dv, distances b !! u = Some (Fin du) ∧
           distances b !! v = Some (Fin dv) ∧ du <= dv.
Proof.
  intros Hnn Hs Ha Hu Hent.
  pose proof (reachable_inv _ _ _ Hs Ha) as Hinv.
  pose proof (reachable_dijkstra_inv _ _ _ Hnn Hs Ha) as Hdi.
  destruct (enters_shortest _ _ _ _ _ Hnn Hinv Hdi Hent)
    as (k & Hk & _ & Hin).
  destruct (bi_visited _ _ _ Hinv _ Hu) as (du & Hdu).
  destruct Hent as (Hab & _ & Hvb).
  destruct (step_visited _ _ Hab) as (Hsub & Hframe & _).
  exists du, k. rewrite !Hframe by (done || by apply Hsub).
  split; [done|]. split; [done|]. by eapply (di_low _ _ Hdi).
Qed.

Lemma finalized_in_distance_order_witness :
  let a := advance (init_state create_sample_graph "A") in
  let b := advance a in
  nonneg create_sample_graph ∧ "A" ∈ dom create_sample_graph ∧
  reachable create_sample_graph "A" a ∧ "A" ∈ visited a ∧
  enters "B" a b ∧
  ∃ du dv, distances b !! "A" = Some (Fin du) ∧
           distances b !! "B" = Some (Fin dv) ∧ du <= dv.
Proof.
  intros a b.
  assert (nonneg create_sample_graph) as Hnn.
  { apply (bool_decide_unpack _). vm_compute. exact I. }
  assert ("A" ∈ dom create_sample_graph) as Hs.
  { apply (bool_decide_unpack _). vm_compute. exact I. }
  assert (reachable create_sample_graph "A" a) as Ha.
  { apply rtc_once. vm_compute. reflexivity. }
  assert ("A" ∈ visited a) as Hu.
  { apply (bool_decide_unpack _). vm_compute. exact I. }
  assert (enters "B" a b) as Hent.
  { split; [vm_compute; reflexivity|].
    split; apply (bool_decide_unpack _); vm_compute; exact I. }
  split; [exact Hnn|]. split; [exact Hs|]. split; [exact Ha|].
  split; [exact Hu|]. split; [exact Hent|].
  exact (finalized_in_distance_order create_sample_graph "A" a b "A" "B"
           Hnn Hs Ha Hu Hent).
Defined.

(** X6: with non-negative weights, in every state of a run the entry of
    a visited vertex is the least weight of a path from the start to it,
    also in a run that later raises [KeyError]. *)
Theorem visited_entry_is_shortest g s st v :
  nonneg g → s ∈ dom g → reachable g s st → v ∈ visited st →
  ∃ d, distances st !! v = Some (Fin d) ∧ shortest g s v d.
Proof.
  intros Hnn Hs Hst Hv.
  destruct (entered g s st v Hst Hv) as (a & b & Ha & Hent & Hb).
  pose proof (reachable_inv _ _ _ Hs Ha) as Hinv.
  pose proof (reachable_dijkstra_inv _ _ _ Hnn Hs Ha) as Hdi.
  destruct (enters_shortest _ _ _ _ _ Hnn Hinv Hdi Hent)
    as (k & Hk & Hsh & _).
  destruct Hent as (Hab & _ & Hvb).
  destruct (steps_visited _ _ _ Hb Hvb) as [_ Heq].
  destruct (step_visited _ _ Hab) as (_ & Hframe & _).
  exists k. split; [|done]. by rewrite Heq, Hframe.
Qed.

Lemma visited_entry_is_shortest_witness :
  let st := advance (advance (init_state create_sample_graph "A")) in
  nonneg create_sample_graph ∧ "A" ∈ dom create_sample_graph ∧
  reachable create_sample_graph "A" st ∧ "B" ∈ visited st ∧
  ∃ d, distances st !! "B" = Some (Fin d) ∧
       shortest create_sample_graph "A" "B" d.
Proof.
  intros st.
  assert (nonneg create_sample_graph) as Hnn.
  { apply (bool_decide_unpack _). vm_compute. exact I. }
  assert ("A" ∈ dom create_sample_graph) as Hs.
  { apply (bool_decide_unpack _). vm_compute. exact I. }
  assert (reachable create_sample_graph "A" st) as Hst.
  { apply (rtc_l _ _ (advance (init_state create_sample_graph "A")));
      [vm_compute; reflexivity|].
    apply rtc_once. vm_compute. reflexivity. }
  assert ("B" ∈ visited st) as Hv.
  { apply (bool_decide_unpack _). vm_compute. exact I. }
  split; [exact Hnn|]. split; [exact Hs|]. split; [exact Hst|].
  split; [exact Hv|].
  exact (visited_entry_is_shortest create_sample_graph "A" st "B"
           Hnn Hs Hst Hv).
Defined.

(** X7: in every state of a run from a start vertex that is a key, the
    queue and the table agree: the vertex of a queue entry has a number in
    the table that is at most the entry's key; a vertex that is not
    visited and has a number in the table has a queue entry with exactly
    that number; every number in the table is the weight of a path from
    the start; and the table has the keys of the graph. *)
Theorem queue_agrees_with_table g s st :
  s ∈ dom g → reachable g s st →
  (∀ k x, (k, x) ∈ pq_items (priority_queue st) →
          ∃ d, distances st !! x = Some (Fin d) ∧ d <= k) ∧
  (∀ v d, v ∉ visited st → distances st !! v = Some (Fin d) →
          (d, v) ∈ pq_items (priority_queue st)) ∧
  (∀ v d, distances st !! v = Some (Fin d) → path g s v d) ∧
  dom (distances st) = dom g.
Proof.
  intros Hs Hst. pose proof (reachable_inv _ _ _ Hs Hst) as Hinv.
  split; [apply Hinv|]. split; [apply Hinv|]. split; apply Hinv.
Qed.

Lemma queue_agrees_with_table_witness :
  let st := advance (advance (init_state negative_graph "A")) in
  "A" ∈ dom negative_graph ∧ reachable negative_graph "A" st ∧
  ∀ k x, (k, x) ∈ pq_items (priority_queue st) →
         ∃ d, distances st !! x = Some (Fin d) ∧ d <= k.
Proof.
  intros st.
  assert ("A" ∈ dom negative_graph) as Hs.
  { apply (bool_decide_unpack _). vm_compute. exact I. }
  assert (reachable negative_graph "A" st) as Hst.
  { apply (rtc_l _ _ (advance (init_state negative_graph "A")));
      [vm_compute; reflexivity|].
    apply rtc_once. vm_compute. reflexivity. }
  split; [exact Hs|]. split; [exact Hst|].
  exact (proj1 (queue_agrees_with_table negative_graph "A" st Hs Hst)).
Defined.

(** X8: with non-negative weights, whenever the call returns (the graph
    may have edges to missing vertices out of reach of the start), the
    table holds at every reachable vertex the least weight of a path
    from the start. *)
Theorem shortest_whenever_returns g s t v W :
  nonneg g → dijkstra_with_heap g s = Returns t → path g s v W →
  ∃ d, t !! v = Some (Fin d) ∧ shortest g s v d.
Proof.
  intros Hnn Hret Hp.
  destruct (returns_nonneg _ _ _ Hnn Hret) as (Hsh & Hlow & _).
  destruct (Hlow _ _ Hp) as (d & Hd & _). exists d. split; [done|].
  by apply Hsh.
Qed.

Lemma shortest_whenever_returns_witness :
  nonneg unreached_dangling_graph ∧ ¬ closed unreached_dangling_graph ∧
  dijkstra_with_heap unreached_dangling_graph "A" =
    Returns (list_to_map [("A", Fin 0); ("B", Fin 2); ("C", Inf)]%string) ∧
  path unreached_dangling_graph "A" "B" 2 ∧
  ∃ d, (list_to_map [("A", Fin 0); ("B", Fin 2); ("C", Inf)]%string : table)
         !! "B" = Some (Fin d) ∧
       shortest unreached_dangling_graph "A" "B" d.
Proof.
  assert (nonneg unreached_dangling_graph) as Hnn.
  { apply (bool_decide_unpack _). vm_compute. exact I. }
  assert (¬ closed unreached_dangling_graph) as Hnc.
  { apply (bool_decide_unpack _). vm_compute. exact I. }
  assert (dijkstra_with_heap unreached_dangling_graph "A" =
    Returns (list_to_map [("A", Fin 0); ("B", Fin 2); ("C", Inf)]%string))
    as Hret by (vm_compute; reflexivity).
  assert (path unreached_dangling_graph "A" "B" 2) as Hp.
  { apply path_edge. eexists. split; [vm_compute; reflexivity|].
    apply elem_of_cons. by left. }
  split; [exact Hnn|]. split; [exact Hnc|]. split; [exact Hret|].
  split; [exact Hp|].
  exact (shortest_whenever_returns _ _ _ _ _ Hnn Hret Hp).
Defined.

(** X9: with non-negative weights no edge can improve a returned table:
    for every edge out of a vertex with a number in the table, the
    neighbor's entry is at most that number plus the weight of the
    edge. *)
Theorem no_edge_improves_table g s t v u w dv :
  nonneg g → dijkstra_with_heap g s = Returns t →
  edge g v u w → t !! v = Some (Fin dv) →
  ∃ du, t !! u = Some (Fin du) ∧ du <= dv + w.
Proof.
  intros Hnn Hret He Hdv.
  destruct (returns_nonneg _ _ _ Hnn Hret) as (_ & _ & Hrel).
  by eapply Hrel.
Qed.

Lemma no_edge_improves_table_witness :
  nonneg create_sample_graph ∧
  dijkstra_with_heap create_sample_graph "A" =
    Returns (list_to_map [("A", Fin 0); ("B", Fin 5); ("C", Fin 10);
                          ("D", Fin 8); ("E", Fin 12)]%string) ∧
  edge create_sample_graph "C" "D" 2 ∧
  ∃ du, (list_to_map [("A", Fin 0); ("B", Fin 5); ("C", Fin 10);
                      ("D", Fin 8); ("E", Fin 12)]%string : table)
          !! "D" = Some (Fin du) ∧ du <= 10 + 2.
Proof.
  assert (nonneg create_sample_graph) as Hnn.
  { apply (bool_decide_unpack _). vm_compute. exact I. }
  assert (dijkstra_with_heap create_sample_graph "A" =
    Returns (list_to_map [("A", Fin 0); ("B", Fin 5); ("C", Fin 10);
                          ("D", Fin 8); ("E", Fin 12)]%string))
    as Hret by (vm_compute; reflexivity).
  assert (edge create_sample_graph "C" "D" 2) as He.
  { eexists. split; [vm_compute; reflexivity|].
    apply elem_of_cons. right. apply elem_of_cons. by left. }
  split; [exact Hnn|]. split; [exact Hret|]. split; [exact He|].
  apply (no_edge_improves_table _ _ _ "C" "D" 2 10 Hnn Hret He).
  vm_compute. reflexivity.
Defined.

(** X10: with non-negative weights every vertex other than the start
    that has a number in a returned table has a predecessor on a shortest
    path: an edge into it from a vertex whose entry plus the weight of
    the edge is that number. *)
Theorem predecessor_on_shortest_path g s t v d :
  nonneg g → dijkstra_with_heap g s = Returns t →
  t !! v = Some (Fin d) → v ≠ s →
  ∃ u w du, edge g u v w ∧ t !! u = Some (Fin du) ∧ d = du + w.
Proof.
  intros Hnn Hret Hd Hne.
  destruct (returns_nonneg _ _ _ Hnn Hret) as (Hsh & Hlow & Hrel).
  destruct (Hsh _ _ Hd) as [Hp _].
  inversion Hp as [|u v' W w Hpu He]; subst; [done|].
  destruct (Hlow _ _ Hpu) as (du & Hdu & Hle).
  destruct (Hrel _ _ _ _ He Hdu) as (d' & Hd' & Hle').
  rewrite Hd in Hd'. injection Hd' as <-.
  exists u, w, du. split; [done|]. split; [done|]. lia.
Qed.

Lemma predecessor_on_shortest_path_witness :
  nonneg create_sample_graph ∧
  dijkstra_with_heap create_sample_graph "A" =
    Returns (list_to_map [("A", Fin 0); ("B", Fin 5); ("C", Fin 10);
                          ("D", Fin 8); ("E", Fin 12)]%string) ∧
  ∃ u w du,
    edge create_sample_graph u "E" w ∧
    (list_to_map [("A", Fin 0); ("B", Fin 5); ("C", Fin 10);
                  ("D", Fin 8); ("E", Fin 12)]%string : table)
      !! u = Some (Fin du) ∧ 12 = du + w.
Proof.
  assert (nonneg create_sample_graph) as Hnn.
  { apply (bool_decide_unpack _). vm_compute. exact I. }
  assert (dijkstra_with_heap create_sample_graph "A" =
    Returns (list_to_map [("A", Fin 0); ("B", Fin 5); ("C", Fin 10);
                          ("D", Fin 8); ("E", Fin 12)]%string))
    as Hret by (vm_compute; reflexivity).
  split; [exact Hnn|]. split; [exact Hret|].
  apply (predecessor_on_shortest_path _ _ _ "E" 12 Hnn Hret).
  - vm_compute. reflexivity.
  - discriminate.
Defined.

(** X11: with non-negative weights the numbers of a returned table are
    not negative. *)
Theorem distances_nonnegative g s t v d :
  nonneg g → dijkstra_with_heap g s = Returns t →
  t !! v = Some (Fin d) → 0 <= d.
Proof.
  intros Hnn Hret Hd. eapply path_nonneg; [done|]. by eapply returns_path.
Qed.

Lemma distances_nonnegative_witness :
  nonneg create_sample_graph ∧
  dijkstra_with_heap create_sample_graph "E" =
    Returns (list_to_map [("E", Fin 0); ("D", Fin 4); ("B", Fin 7);
                          ("C", Fin 6); ("A", Fin 12)]%string) ∧
  0 <= 7.
Proof.
  assert (nonneg create_sample_graph) as Hnn.
  { apply (bool_decide_unpack _). vm_compute. exact I. }
  assert (dijkstra_with_heap create_sample_graph "E" =
    Returns (list_to_map [("E", Fin 0); ("D", Fin 4); ("B", Fin 7);
                          ("C", Fin 6); ("A", Fin 12)]%string))
    as Hret by (vm_compute; reflexivity).
  split; [exact Hnn|]. split; [exact Hret|].
  apply (distances_nonnegative _ _ _ "B" 7 Hnn Hret).
  vm_compute. reflexivity.
Defined.

(** X12: triangle inequality between two calls on a graph with
    non-negative weights: the distance from [s] to [v] is at most the
    distance from [s] to [u] plus the distance from [u] to [v]. *)
Theorem triangle_inequality g s u v ts tu a b :
  nonneg g →
  dijkstra_with_heap g s = Returns ts →
  dijkstra_with_heap g u = Returns tu →
  ts !! u = Some (Fin a) → tu !! v = Some (Fin b) →
  ∃ c, ts !! v = Some (Fin c) ∧ c <= a + b.
Proof.
  intros Hnn Hs Hu Ha Hb.
  destruct (returns_nonneg _ _ _ Hnn Hs) as (Hsh & Hlow & _).
  destruct (returns_nonneg _ _ _ Hnn Hu) as (Hshu & _ & _).
  destruct (Hsh _ _ Ha) as [Hpa _]. destruct (Hshu _ _ Hb) as [Hpb _].
  apply Hlow. by eapply path_app.
Qed.

Lemma triangle_inequality_witness :
  nonneg create_sample_graph ∧
  dijkstra_with_heap create_sample_graph "A" =
    Returns (list_to_map [("A", Fin 0); ("B", Fin 5); ("C", Fin 10);
                          ("D", Fin 8); ("E", Fin 12)]%string) ∧
  dijkstra_with_heap create_sample_graph "E" =
    Returns (list_to_map [("E", Fin 0); ("D", Fin 4); ("B", Fin 7);
                          ("C", Fin 6); ("A", Fin 12)]%string) ∧
  ∃ c, (list_to_map [("A", Fin 0); ("B", Fin 5); ("C", Fin 10);
                     ("D", Fin 8); ("E", Fin 12)]%string : table)
         !! "C" = Some (Fin c) ∧ c <= 12 + 6.
Proof.
  assert (nonneg create_sample_graph) as Hnn.
  { apply (bool_decide_unpack _). vm_compute. exact I. }
  assert (dijkstra_with_heap create_sample_graph "A" =
    Returns (list_to_map [("A", Fin 0); ("B", Fin 5); ("C", Fin 10);
                          ("D", Fin 8); ("E", Fin 12)]%string))
    as Hs by (vm_compute; reflexivity).
  assert (dijkstra_with_heap create_sample_graph "E" =
    Returns (list_to_map [("E", Fin 0); ("D", Fin 4); ("B", Fin 7);
                          ("C", Fin 6); ("A", Fin 12)]%string))
    as Hu by (vm_compute; reflexivity).
  split; [exact Hnn|]. split; [exact Hs|]. split; [exact Hu|].
  apply (triangle_inequality _ "A" "E" "C" _ _ 12 6 Hnn Hs Hu);
    vm_compute; reflexivity.
Defined.

(** X13: on a graph with non-negative weights in which every edge has
    the opposite edge with the same weight, as in the sample graph, the
    distance from [a] to [b] is the distance from [b] to [a]. *)
Theorem symmetric_graph_distances g a b ta tb :
  nonneg g → symmetric g →
  dijkstra_with_heap g a = Returns ta →
  dijkstra_with_heap g b = Returns tb →
  ta !! b = tb !! a.
Proof.
  intros Hnn Hsym Ha Hb.
  destruct (returns_inv _ _ _ Ha) as (Hda & sta & _ & Hta & _ & Hia & _).
  destruct (returns_inv _ _ _ Hb) as (Hdb & stb & _ & Htb & _ & Hib & _).
  destruct (returns_nonneg _ _ _ Hnn Ha) as (Hsha & Hlowa & _).
  destruct (returns_nonneg _ _ _ Hnn Hb) as (Hshb & Hlowb & _).
  assert (is_Some (ta !! b)) as [x Hx].
  { apply elem_of_dom. by rewrite <- Hta, (bi_dom _ _ _ Hia). }
  assert (is_Some (tb !! a)) as [y Hy].
  { apply elem_of_dom. by rewrite <- Htb, (bi_dom _ _ _ Hib). }
  rewrite Hx, Hy. f_equal. destruct x as [d|], y as [d'|]; try done.
  - destruct (Hsha _ _ Hx) as [Hp Hmin]. destruct (Hshb _ _ Hy) as [Hp' Hmin'].
    apply (symmetric_path _ _ _ _ Hsym) in Hp, Hp'.
    specialize (Hmin _ Hp'). specialize (Hmin' _ Hp). f_equal. lia.
  - destruct (Hsha _ _ Hx) as [Hp _].
    apply (symmetric_path _ _ _ _ Hsym) in Hp.
    destruct (Hlowb _ _ Hp) as (? & ? & _). congruence.
  - destruct (Hshb _ _ Hy) as [Hp _].
    apply (symmetric_path _ _ _ _ Hsym) in Hp.
    destruct (Hlowa _ _ Hp) as (? & ? & _). congruence.
Qed.

Lemma symmetric_graph_distances_witness :
  nonneg create_sample_graph ∧ symmetric create_sample_graph ∧
  ∃ ta tb,
    dijkstra_with_heap create_sample_graph "A" = Returns ta ∧
    dijkstra_with_heap create_sample_graph "E" = Returns tb ∧
    ta !! "E" = tb !! "A".
Proof.
  assert (nonneg create_sample_graph) as Hnn.
  { apply (bool_decide_unpack _). vm_compute. exact I. }
  assert (symmetric create_sample_graph) as Hsym.
  { apply (bool_decide_unpack _). vm_compute. exact I. }
  assert (dijkstra_with_heap create_sample_graph "A" =
    Returns (list_to_map [("A", Fin 0); ("B", Fin 5); ("C", Fin 10);
                          ("D", Fin 8); ("E", Fin 12)]%string))
    as Ha by (vm_compute; reflexivity).
  assert (dijkstra_with_heap create_sample_graph "E" =
    Returns (list_to_map [("E", Fin 0); ("D", Fin 4); ("B", Fin 7);
                          ("C", Fin 6); ("A", Fin 12)]%string))
    as Hb by (vm_compute; reflexivity).
  split; [exact Hnn|]. split; [exact Hsym|].
  eexists _, _. split; [exact Ha|]. split; [exact Hb|].
  exact (symmetric_graph_distances _ "A" "E" _ _ Hnn Hsym Ha Hb).
Defined.

(** X14: with non-negative weights a returned table depends only on the
    keys and the edges of the graph, not on the order in which the items
    of an adjacency dictionary were inserted: a graph with the same keys
    and the same edges gives the same table. *)
Theorem table_depends_on_edges_only g g' s t :
  nonneg g → dom g' = dom g → edges_within g g' → edges_within g' g →
  dijkstra_with_heap g s = Returns t →
  dijkstra_with_heap g' s = Returns t.
Proof.
  intros Hnn Hdom Hin Hin' Hret.
  assert (nonneg g') as Hnn'.
  { apply edge_nonneg. intros v u w He.
    eapply nonneg_edge; [exact Hnn|]. by eapply edges_within_edge. }
  assert (∃ t', dijkstra_with_heap g' s = Returns t') as [t' Hret'].
  { destruct (returns_reachable_part_closed _ _ _ Hret) as [Hs Hcl].
    apply reachable_part_closed_returns; rewrite Hdom; [done|].
    intros v u w W Hp He.
    eapply Hcl; [by eapply edges_within_path|by eapply edges_within_edge]. }
  rewrite Hret'. f_equal.
  destruct (returns_inv _ _ _ Hret) as (_ & st & _ & Ht & _ & Hi & _).
  destruct (returns_inv _ _ _ Hret') as (_ & st' & _ & Ht' & _ & Hi' & _).
  destruct (returns_nonneg _ _ _ Hnn Hret) as (Hsh & Hlow & _).
  destruct (returns_nonneg _ _ _ Hnn' Hret') as (Hsh' & Hlow' & _).
  apply map_eq. intros v.
  destruct (t !! v) as [x|] eqn:Hx, (t' !! v) as [x'|] eqn:Hx'.
  - f_equal. destruct x as [d|], x' as [d'|]; try done.
    + destruct (Hsh _ _ Hx) as [Hp Hmin].
      destruct (Hsh' _ _ Hx') as [Hp' Hmin'].
      apply (edges_within_path _ _ _ _ _ Hin) in Hp.
      apply (edges_within_path _ _ _ _ _ Hin') in Hp'.
      specialize (Hmin _ Hp'). specialize (Hmin' _ Hp). f_equal. lia.
    + destruct (Hsh _ _ Hx) as [Hp _].
      apply (edges_within_path _ _ _ _ _ Hin) in Hp.
      destruct (Hlow' _ _ Hp) as (? & ? & _). congruence.
    + destruct (Hsh' _ _ Hx') as [Hp _].
      apply (edges_within_path _ _ _ _ _ Hin') in Hp.
      destruct (Hlow _ _ Hp) as (? & ? & _). congruence.
  - apply elem_of_dom_2 in Hx. apply not_elem_of_dom in Hx'.
    rewrite <- Ht, (bi_dom _ _ _ Hi) in Hx.
    rewrite <- Ht', (bi_dom _ _ _ Hi'), Hdom in Hx'. done.
  - apply elem_of_dom_2 in Hx'. apply not_elem_of_dom in Hx.
    rewrite <- Ht, (bi_dom _ _ _ Hi) in Hx.
    rewrite <- Ht', (bi_dom _ _ _ Hi'), Hdom in Hx'. done.
  - done.
Qed.

Lemma table_depends_on_edges_only_witness :
  nonneg create_sample_graph ∧
  dom reordered_sample_graph = dom create_sample_graph ∧
  edges_within create_sample_graph reordered_sample_graph ∧
  edges_within reordered_sample_graph create_sample_graph ∧
  ∃ t, dijkstra_with_heap create_sample_graph "A" = Returns t ∧
       dijkstra_with_heap reordered_sample_graph "A" = Returns t.
Proof.
  assert (nonneg create_sample_graph) as Hnn.
  { apply (bool_decide_unpack _). vm_compute. exact I. }
  assert (dom reordered_sample_graph = dom create_sample_graph) as Hdom.
  { apply (bool_decide_unpack _). vm_compute. exact I. }
  assert (edges_within create_sample_graph reordered_sample_graph) as Hin.
  { apply (bool_decide_unpack _). vm_compute. exact I. }
  assert (edges_within reordered_sample_graph create_sample_graph) as Hin'.
  { apply (bool_decide_unpack _). vm_compute. exact I. }
  assert (dijkstra_with_heap create_sample_graph "A" =
    Returns (list_to_map [("A", Fin 0); ("B", Fin 5); ("C", Fin 10);
                          ("D", Fin 8); ("E", Fin 12)]%string))
    as Hret by (vm_compute; reflexivity).
  split; [exact Hnn|]. split; [exact Hdom|]. split; [exact Hin|].
  split; [exact Hin'|]. eexists. split; [exact Hret|].
  exact (table_depends_on_edges_only _ _ "A" _ Hnn Hdom Hin Hin' Hret).
Defined.

(** X15: adding edges or lowering weights never raises a distance: when
    every edge of [g] has in [g'] an edge between the same vertices that
    weighs no more, and the weights of [g'] are non-negative, no entry of
    the table of [g'] is greater than the entry of the table of [g]. *)
Theorem lighter_graph_shorter_distances g g' s t t' v x x' :
  nonneg g' → undercut_by g g' →
  dijkstra_with_heap g s = Returns t →
  dijkstra_with_heap g' s = Returns t' →
  t !! v = Some x → t' !! v = Some x' → dist_le x' x.
Proof.
  intros Hnn' Hu Hret Hret' Hx Hx'.
  destruct x as [d|]; [|by destruct x'].
  pose proof (returns_path _ _ _ _ _ Hret Hx) as Hp.
  destruct (undercut_by_path _ _ _ _ _ Hu Hp) as (W' & Hp' & Hle).
  destruct (returns_nonneg _ _ _ Hnn' Hret') as (_ & Hlow' & _).
  destruct (Hlow' _ _ Hp') as (d' & Hd' & Hle').
  rewrite Hx' in Hd'. injection Hd' as ->. simpl. lia.
Qed.

Lemma lighter_graph_shorter_distances_witness :
  nonneg shortcut_sample_graph ∧
  undercut_by create_sample_graph shortcut_sample_graph ∧
  dijkstra_with_heap create_sample_graph "A" =
    Returns (list_to_map [("A", Fin 0); ("B", Fin 5); ("C", Fin 10);
                          ("D", Fin 8); ("E", Fin 12)]%string) ∧
  dijkstra_with_heap shortcut_sample_graph "A" =
    Returns (list_to_map [("A", Fin 0); ("B", Fin 5); ("C", Fin 7);
                          ("D", Fin 5); ("E", Fin 1)]%string) ∧
  dist_le (Fin 5) (Fin 8).
Proof.
  assert (nonneg shortcut_sample_graph) as Hnn.
  { apply (bool_decide_unpack _). vm_compute. exact I. }
  assert (undercut_by create_sample_graph shortcut_sample_graph) as Hu.
  { apply (bool_decide_unpack _). vm_compute. exact I. }
  assert (dijkstra_with_heap create_sample_graph "A" =
    Returns (list_to_map [("A", Fin 0); ("B", Fin 5); ("C", Fin 10);
                          ("D", Fin 8); ("E", Fin 12)]%string))
    as Hret by (vm_compute; reflexivity).
  assert (dijkstra_with_heap shortcut_sample_graph "A" =
    Returns (list_to_map [("A", Fin 0); ("B", Fin 5); ("C", Fin 7);
                          ("D", Fin 5); ("E", Fin 1)]%string))
    as Hret' by (vm_compute; reflexivity).
  split; [exact Hnn|]. split; [exact Hu|]. split; [exact Hret|].
  split; [exact Hret'|].
  apply (lighter_graph_shorter_distances _ _ "A" _ _ "D" _ _
           Hnn Hu Hret Hret'); vm_compute; reflexivity.
Defined.

(** X16: when the start vertex is a key with an empty adjacency
    dictionary, the call returns the initial table, 0 at the start and
    infinity at every other key, whatever the rest of the graph holds; the
    run has then made a single pop and no push, and visited the start
    only. *)
Theorem start_without_edges g s :
  g !! s = Some [] →
  dijkstra_with_heap g s = Returns (<[s := Fin 0]> ((λ _, Inf) <$> g)) ∧
  ∃ st, run g s = Finished st ∧
        pq_pops (priority_queue st) = 1%nat ∧
        pq_pushes (priority_queue st) = 0%nat ∧
        pq_items (priority_queue st) = [] ∧
        visited st = {[s]}.
Proof.
  intros Hs.
  assert (iteration (init_state g s) =
          Continue {| graph := g;
                      distances := <[s := Fin 0]> ((λ _, Inf) <$> g);
                      visited := {[s]} ∪ ∅;
                      priority_queue :=
                        {| pq_items := []; pq_pushes := 0; pq_pops := 1 |} |})
    as Hfirst.
  { unfold iteration, init_state. simpl.
    rewrite decide_False by apply not_elem_of_empty. by rewrite Hs. }
  assert (∀ n st, pq_items (priority_queue st) = [] →
                  while_loop (S n) st = Finished st) as Hlast.
  { intros n st Hq. simpl. by rewrite (proj2 (iteration_Break st) Hq). }
  assert (run g s =
          Finished {| graph := g;
                      distances := <[s := Fin 0]> ((λ _, Inf) <$> g);
                      visited := {[s]} ∪ ∅;
                      priority_queue :=
                        {| pq_items := []; pq_pushes := 0; pq_pops := 1 |} |})
    as Hrun.
  { unfold run.
    change (while_loop (S (S (edge_count g))) (init_state g s))
      with (match iteration (init_state g s) with
            | Continue st' => while_loop (S (edge_count g)) st'
            | Break => Finished (init_state g s)
            | Throw e => Raised e
            end).
    rewrite Hfirst. by apply Hlast. }
  unfold dijkstra_with_heap. rewrite Hrun. split; [done|].
  eexists. split; [done|]. simpl.
  repeat split; try done. apply (right_id_L ∅ (∪)).
Qed.

Lemma start_without_edges_witness :
  unreached_dangling_graph !! "B" = Some [] ∧
  dijkstra_with_heap unreached_dangling_graph "B" =
    Returns (<["B" := Fin 0]> ((λ _, Inf) <$> unreached_dangling_graph)) ∧
  ∃ st, run unreached_dangling_graph "B" = Finished st ∧
        pq_pops (priority_queue st) = 1%nat ∧
        pq_pushes (priority_queue st) = 0%nat ∧
        pq_items (priority_queue st) = [] ∧
        visited st = {["B"]}.
Proof.
  assert (unreached_dangling_graph !! "B" = Some []) as Hs
    by (vm_compute; reflexivity).
  split; [exact Hs|].
  exact (start_without_edges unreached_dangling_graph "B" Hs).
Defined.
